(** * PII masking (regex) policy: a shallow embedding and its properties

    The policy [piimaskingregex] detects regex-defined entities in a
    request text, replaces them by placeholders ([maskPIIFromContent]) or
    by asterisks ([redactPIIFromContent]), and restores the placeholders
    in the response ([restorePIIInResponse]).

    Conventions of the embedding.
    - A Go [string] is a [list ascii] (a sequence of bytes).
      [strings.TrimSpace] decodes the white space of Unicode from its
      UTF-8 bytes, as the library does.  The other library functions
      that work on runes ([regexp], and [strings.ReplaceAll] with an
      empty [old]) are modelled on the ASCII range, where one byte is
      one rune.
    - A Go [map] is an association list in insertion order with unique
      keys.  A [range] over a map visits the entries in an order that the
      runtime chooses; every [range] statement takes that choice as an
      explicit argument, a function that permutes the entries.
    - The collaborators outside the package ([json.Unmarshal],
      [json.Marshal], [utils.SetValueAtJSONPath],
      [utils.ExtractStringValueFromJsonpath]) are section variables. *)

From Stdlib Require Import Ascii String.
From Stdlib Require Import List Bool Arith Lia Permutation.
From Stdlib Require Import Sorting.Sorted.
Import ListNotations.

Set Implicit Arguments.

(* ================================================================== *)
(** ** Go strings *)

Definition gostring := list ascii.

Definition str (s : string) : gostring := list_ascii_of_string s.
Arguments str s%_string.

Definition gostring_dec : forall a b : gostring, {a = b} + {a <> b} :=
  list_eq_dec ascii_dec.

Definition eqs (a b : gostring) : bool :=
  if gostring_dec a b then true else false.

(** [strings.HasPrefix s old]. *)
Fixpoint HasPrefix (s old : gostring) : bool :=
  match old, s with
  | [], _ => true
  | _ :: _, [] => false
  | o :: old', c :: s' => Ascii.eqb o c && HasPrefix s' old'
  end.

(** [strings.Contains s substr]. *)
Fixpoint Contains (s substr : gostring) : bool :=
  HasPrefix s substr ||
  match s with
  | [] => false
  | _ :: s' => Contains s' substr
  end.

(** The replacement loop of [strings.Replace] for a non-empty [old]:
    the leftmost occurrence is replaced and the scan resumes after it.
    [skip] counts the bytes of the occurrence still to be dropped. *)
Fixpoint replace_scan (old new : gostring) (skip : nat) (s : gostring)
  : gostring :=
  match s with
  | [] => []
  | c :: s' =>
      match skip with
      | S k => replace_scan old new k s'
      | O =>
          if HasPrefix s old
          then new ++ replace_scan old new (length old - 1) s'
          else c :: replace_scan old new 0 s'
      end
  end.

(** [strings.Replace] with an empty [old]: [new] is inserted at the
    beginning and after every rune. *)
Fixpoint replace_empty (new s : gostring) : gostring :=
  match s with
  | [] => new
  | c :: s' => new ++ c :: replace_empty new s'
  end.

(** [strings.ReplaceAll s old new]. *)
Definition ReplaceAll (s old new : gostring) : gostring :=
  if eqs old new then s
  else match old with
       | [] => replace_empty new s
       | _ :: _ => replace_scan old new 0 s
       end.

(** The white space of [unicode.IsSpace], each rune in its UTF-8
    encoding: U+0009 to U+000D, U+0020, U+0085, U+00A0, U+1680, U+2000 to
    U+200A, U+2028, U+2029, U+202F, U+205F and U+3000. *)
Definition whiteSpace : list gostring :=
  map (map ascii_of_nat)
    [[9]; [10]; [11]; [12]; [13]; [32]; [194; 133]; [194; 160];
     [225; 154; 128];
     [226; 128; 128]; [226; 128; 129]; [226; 128; 130]; [226; 128; 131];
     [226; 128; 132]; [226; 128; 133]; [226; 128; 134]; [226; 128; 135];
     [226; 128; 136]; [226; 128; 137]; [226; 128; 138];
     [226; 128; 168]; [226; 128; 169]; [226; 128; 175]; [226; 129; 159];
     [227; 128; 128]].

(** [strings.CutPrefix s old]: the text after the prefix [old]. *)
Fixpoint CutPrefix (s old : gostring) {struct old} : option gostring :=
  match old, s with
  | [], _ => Some s
  | _ :: _, [] => None
  | o :: old', c :: s' => if Ascii.eqb o c then CutPrefix s' old' else None
  end.

(** The text after its first rune, when the bytes of that rune are among
    [runes]. *)
Definition cutRune (runes : list gostring) (s : gostring)
  : option gostring :=
  fold_right (fun r found =>
                match CutPrefix s r with
                | Some s' => Some s'
                | None => found
                end) None runes.

(** The loop of [strings.TrimLeftFunc]: runes are dropped from the
    beginning as long as they are among [runes].  Every step drops a
    byte at least, so [fuel] is the length of the text. *)
Fixpoint trimRunes (runes : list gostring) (fuel : nat) (s : gostring)
  : gostring :=
  match fuel with
  | O => s
  | S fuel' =>
      match cutRune runes s with
      | Some s' => trimRunes runes fuel' s'
      | None => s
      end
  end.

(** [strings.TrimLeftFunc s unicode.IsSpace]. *)
Definition TrimLeft (s : gostring) : gostring :=
  trimRunes whiteSpace (length s) s.

(** [strings.TrimRightFunc s unicode.IsSpace]: the last rune is decoded
    backwards from the end of the text, that is, the text read backwards
    begins with the bytes of the rune read backwards. *)
Definition TrimRight (s : gostring) : gostring :=
  rev (trimRunes (map (@rev ascii) whiteSpace) (length s) (rev s)).

(** [strings.TrimSpace s]. *)
Definition TrimSpace (s : gostring) : gostring :=
  TrimRight (TrimLeft s).

(* ================================================================== *)
(** ** Go regular expressions

    The syntax tree of the RE2 patterns the policy uses, and a matcher
    with Go's leftmost-first semantics: among the matches that begin
    at the leftmost position the one a backtracking search finds first. *)

Inductive regex : Type :=
| Eps                                        (* empty pattern *)
| Class (fold : bool) (rs : list (ascii * ascii))
                                             (* [a-z...], (?i) when fold *)
| Cat (a b : regex)                          (* ab *)
| Alt (a b : regex)                          (* a|b, a preferred *)
| Star (a : regex)                           (* a*, greedy *)
| Times (a : regex) (n : nat)                (* a{n} *)
| UpTo (a : regex) (n : nat)                 (* a{0,n}, greedy *)
| WordB                                      (* \b *)
| Bot                                        (* ^ without (?m) *)
| Eot.                                       (* $ without (?m) *)

Definition Lit (c : ascii) : regex := Class false [(c, c)].
Definition Plus (a : regex) : regex := Cat a (Star a).
Definition Opt (a : regex) : regex := Alt a Eps.

Definition in_range (c : ascii) (r : ascii * ascii) : bool :=
  (nat_of_ascii (fst r) <=? nat_of_ascii c) &&
  (nat_of_ascii c <=? nat_of_ascii (snd r)).

Definition toLower (c : ascii) : ascii :=
  let n := nat_of_ascii c in
  if (65 <=? n) && (n <=? 90) then ascii_of_nat (n + 32) else c.

Definition toUpper (c : ascii) : ascii :=
  let n := nat_of_ascii c in
  if (97 <=? n) && (n <=? 122) then ascii_of_nat (n - 32) else c.

Definition class_mem (fold : bool) (rs : list (ascii * ascii)) (c : ascii)
  : bool :=
  existsb (in_range c) rs ||
  (fold && (existsb (in_range (toLower c)) rs ||
            existsb (in_range (toUpper c)) rs)).

(** [\w] of RE2: [0-9A-Za-z_]. *)
Definition isWord (c : ascii) : bool :=
  class_mem false
    [("0", "9"); ("A", "Z"); ("a", "z"); ("_", "_")]%char c.

Definition isWordOpt (c : option ascii) : bool :=
  match c with Some x => isWord x | None => false end.

(** A position in the text: the byte before it ([None] at the beginning
    of the text) and the text that follows. *)
Definition kont := option ascii -> gostring -> option gostring.

(** The greedy loop of [a*]: one more round of [step] is preferred to
    leaving the loop, and a round must consume some text.  [n] bounds
    the number of rounds by the length of the text. *)
Fixpoint starLoop (step : option ascii -> gostring -> kont -> option gostring)
  (k : kont) (n : nat) (p : option ascii) (s : gostring) {struct n}
  : option gostring :=
  match n with
  | O => k p s
  | S n' =>
      match step p s
              (fun p' s' =>
                 if length s' <? length s then starLoop step k n' p' s'
                 else None) with
      | Some x => Some x
      | None => k p s
      end
  end.

(** [a{n}]: exactly [n] rounds. *)
Fixpoint timesLoop (step : option ascii -> gostring -> kont -> option gostring)
  (k : kont) (n : nat) (p : option ascii) (s : gostring) {struct n}
  : option gostring :=
  match n with
  | O => k p s
  | S n' => step p s (fun p' s' => timesLoop step k n' p' s')
  end.

(** [a{0,n}]: at most [n] rounds, as many as possible. *)
Fixpoint uptoLoop (step : option ascii -> gostring -> kont -> option gostring)
  (k : kont) (n : nat) (p : option ascii) (s : gostring) {struct n}
  : option gostring :=
  match n with
  | O => k p s
  | S n' =>
      match step p s (fun p' s' => uptoLoop step k n' p' s') with
      | Some x => Some x
      | None => k p s
      end
  end.

(** [run r p s k]: match [r] at the position [(p, s)], then continue
    with [k]; the alternatives are tried in priority order.  The result
    is the text that follows the whole match. *)
Fixpoint run (r : regex) (p : option ascii) (s : gostring) (k : kont)
  {struct r} : option gostring :=
  match r with
  | Eps => k p s
  | Class f rs =>
      match s with
      | c :: s' => if class_mem f rs c then k (Some c) s' else None
      | [] => None
      end
  | Cat a b => run a p s (fun p' s' => run b p' s' k)
  | Alt a b =>
      match run a p s k with
      | Some x => Some x
      | None => run b p s k
      end
  | Star a => starLoop (run a) k (length s) p s
  | Times a n => timesLoop (run a) k n p s
  | UpTo a n => uptoLoop (run a) k n p s
  | WordB =>
      if xorb (isWordOpt p) (isWordOpt (hd_error s)) then k p s else None
  | Bot => match p with None => k p s | Some _ => None end
  | Eot => match s with [] => k p s | _ :: _ => None end
  end.

(** The match of [r] that begins exactly at [(p, s)], as the text that
    follows it. *)
Definition match_here (r : regex) (p : option ascii) (s : gostring)
  : option gostring :=
  run r p s (fun _ s' => Some s').

(** A piece of the scanned text: a byte outside every match, or an
    accepted match. *)
Inductive piece : Type :=
| Gap (c : ascii)
| Hit (m : gostring).

(** The scan shared by [FindAllString] and [ReplaceAllString]: the
    successive leftmost matches, none overlapping the one before.  An
    empty match that abuts the preceding match ([abut]) is dropped, and
    after an empty match the scan moves on by one byte. *)
Fixpoint scan (r : regex) (p : option ascii) (s : gostring)
  (skip : nat) (abut : bool) {struct s} : list piece :=
  match skip with
  | S k =>
      match s with
      | [] => []
      | c :: s' => scan r (Some c) s' k abut
      end
  | O =>
      match match_here r p s with
      | None =>
          match s with
          | [] => []
          | c :: s' => Gap c :: scan r (Some c) s' 0 false
          end
      | Some rest =>
          match length s - length rest with
          | O =>
              (if abut then [] else [Hit []]) ++
              match s with
              | [] => []
              | c :: s' => Gap c :: scan r (Some c) s' 0 false
              end
          | S k =>
              Hit (firstn (S k) s) ::
              match s with
              | [] => []
              | c :: s' => scan r (Some c) s' k true
              end
          end
      end
  end.

Definition hits (ps : list piece) : list gostring :=
  flat_map (fun x => match x with Hit m => [m] | Gap _ => [] end) ps.

Definition rebuild (repl : gostring) (ps : list piece) : gostring :=
  flat_map (fun x => match x with Hit _ => repl | Gap c => [c] end) ps.

(** The part of [*regexp.Regexp] the policy calls.  [ReplaceAllString]
    takes a replacement without [$], as the policy passes. *)
Record Regexp : Type := mkRegexp {
  FindAllString : gostring -> list gostring;
  MatchString : gostring -> bool;
  ReplaceAllString : gostring -> gostring -> gostring
}.

(** Is there a match at or after the position [(p, s)]? *)
Fixpoint matches_from (r : regex) (p : option ascii) (s : gostring) : bool :=
  match match_here r p s with
  | Some _ => true
  | None =>
      match s with
      | [] => false
      | c :: s' => matches_from r (Some c) s'
      end
  end.

(** [regexp.MustCompile]. *)
Definition MustCompile (r : regex) : Regexp :=
  {| FindAllString := fun s => hits (scan r None s 0 false);
     MatchString := fun s => matches_from r None s;
     ReplaceAllString := fun s repl => rebuild repl (scan r None s 0 false)
  |}.

(* ================================================================== *)
(** ** Go maps and their iteration order *)

Definition gomap (V : Type) := list (gostring * V).

Fixpoint lookup {V : Type} (k : gostring) (m : gomap V) : option V :=
  match m with
  | [] => None
  | (k', v) :: m' => if eqs k k' then Some v else lookup k m'
  end.

Definition exists_key {V : Type} (k : gostring) (m : gomap V) : bool :=
  match lookup k m with Some _ => true | None => false end.

(** [m[k] = v]. *)
Fixpoint store {V : Type} (k : gostring) (v : V) (m : gomap V) : gomap V :=
  match m with
  | [] => [(k, v)]
  | (k', v') :: m' =>
      if eqs k k' then (k, v) :: m' else (k', v') :: store k v m'
  end.

(** [m[k]] of a [map[string]string]: the zero value when [k] is absent. *)
Definition index (m : gomap gostring) (k : gostring) : gostring :=
  match lookup k m with Some v => v | None => [] end.

(** The order in which one call visits the entries of the maps it ranges
    over. *)
Record Runtime : Type := mkRuntime {
  range : forall V : Type, gomap V -> gomap V
}.

(** The runtime visits every entry once. *)
Definition fair (rt : Runtime) : Prop :=
  forall (V : Type) (m : gomap V), Permutation m (range rt m).

Definition inOrder : Runtime := {| range := fun _ m => m |}.
Definition reversed : Runtime := {| range := fun _ m => rev m |}.

(** [sort.Slice(xs, func(i, j) bool { return len(xs[i]) > len(xs[j]) })].
    The input is in the arbitrary order of a [range], so that a stable
    insertion sort reaches every outcome of the library's sort. *)
Fixpoint insertByLen (x : gostring) (l : list gostring) : list gostring :=
  match l with
  | [] => [x]
  | y :: l' =>
      if length x <? length y then y :: insertByLen x l' else x :: l
  end.

Definition sortByLenDesc (l : list gostring) : list gostring :=
  fold_right insertByLen [] l.

(* ================================================================== *)
(** ** The policy *)

Definition quote : ascii := "034"%char.

Definition seq (rs : list regex) : regex := fold_right Cat Eps rs.

Definition digit : regex := Class false [("0", "9")]%char.
Definition digit19 : regex := Class false [("1", "9")]%char.
Definition digit29 : regex := Class false [("2", "9")]%char.

(** [TextCleanRegex], [^"|"$]. *)
Definition TextCleanRegex : regex :=
  Alt (Cat Bot (Lit quote)) (Cat (Lit quote) Eot).

Definition textCleanRegexCompiled : Regexp := MustCompile TextCleanRegex.

Definition MetadataKeyPIIEntities : gostring :=
  str "piimaskingregex:pii_entities".
Definition DefaultEmailEntityName : gostring := str "EMAIL".
Definition DefaultPhoneEntityName : gostring := str "PHONE".
Definition DefaultSSNEntityName : gostring := str "SSN".
Definition APIMInternalErrorCode : nat := 500.

(** [DefaultEmailRegex]:
    (?i)\b[a-z0-9.!#$%&'*+/=?^_{|}~-]+@
    (?:[a-z0-9](?:[a-z0-9-]{0,61}[a-z0-9])?\.)+
    [a-z0-9](?:[a-z0-9-]{0,61}[a-z0-9])\b *)
Definition DefaultEmailRegex : regex :=
  let loc := Class true
    [("a", "z"); ("0", "9"); (".", "."); ("!", "!"); ("#", "#");
     ("$", "$"); ("%", "%"); ("&", "&"); ("'", "'"); ("*", "*");
     ("+", "+"); ("/", "/"); ("=", "="); ("?", "?"); ("^", "^");
     ("_", "_"); ("{", "{"); ("|", "|"); ("}", "}"); ("~", "~");
     ("-", "-")]%char in
  let an := Class true [("a", "z"); ("0", "9")]%char in
  let and := Class true [("a", "z"); ("0", "9"); ("-", "-")]%char in
  seq [WordB; Plus loc; Lit "@";
       Plus (seq [an; Opt (seq [UpTo and 61; an]); Lit "."]);
       an; seq [UpTo and 61; an]; WordB].

(** [DefaultPhoneRegex]:
    (?:\+?1[-.\s]?)?(?:\([2-9][0-9]{2}\)|[2-9][0-9]{2})
    [-.\s]?[2-9][0-9]{2}[-.\s]?[0-9]{4}\b *)
Definition DefaultPhoneRegex : regex :=
  let sep := Class false
    [("-", "-"); (".", "."); ("009", "010"); ("012", "013"); (" ", " ")]%char
  in
  seq [Opt (seq [Opt (Lit "+"); Lit "1"; Opt sep]);
       Alt (seq [Lit "("; digit29; Times digit 2; Lit ")"])
           (seq [digit29; Times digit 2]);
       Opt sep; digit29; Times digit 2; Opt sep; Times digit 4; WordB].

(** [DefaultSSNRegex]:
    (?:00[1-9]|0[1-9][0-9]|[1-5][0-9]{2}|6(?:[0-57-9][0-9]|6[0-57-9])
       |[7-8][0-9]{2})
    [- ]?(?:0[1-9]|[1-9][0-9])
    [- ]?(?:000[1-9]|00[1-9][0-9]|0[1-9][0-9]{2}|[1-9][0-9]{3})\b *)
Definition DefaultSSNRegex : regex :=
  let d0579 := Class false [("0", "5"); ("7", "9")]%char in
  let sep := Class false [("-", "-"); (" ", " ")]%char in
  seq [Alt (seq [Lit "0"; Lit "0"; digit19])
        (Alt (seq [Lit "0"; digit19; digit])
        (Alt (seq [Class false [("1", "5")]%char; Times digit 2])
        (Alt (seq [Lit "6"; Alt (seq [d0579; digit])
                                (seq [Lit "6"; d0579])])
             (seq [Class false [("7", "8")]%char; Times digit 2]))));
       Opt sep;
       Alt (seq [Lit "0"; digit19]) (seq [digit19; digit]);
       Opt sep;
       Alt (seq [Lit "0"; Lit "0"; Lit "0"; digit19])
        (Alt (seq [Lit "0"; Lit "0"; digit19; digit])
        (Alt (seq [Lit "0"; digit19; Times digit 2])
             (seq [digit19; Times digit 3])));
       WordB].

(** The pattern compiled in [maskPIIFromContent]:
    [^\[[A-Z_]+_[0-9a-f]{4}\]$]. *)
Definition placeholderPattern : regex :=
  seq [Bot; Lit "["; Plus (Class false [("A", "Z"); ("_", "_")]%char);
       Lit "_"; Times (Class false [("0", "9"); ("a", "f")]%char) 4;
       Lit "]"; Eot].

(** [%x]: the hexadecimal digits of [n], most significant first. *)
Definition hexDigit (n : nat) : ascii :=
  nth n (str "0123456789abcdef") "0"%char.

Fixpoint hexDigits (fuel n : nat) : gostring :=
  match fuel with
  | O => []
  | S f =>
      if n <? 16 then [hexDigit n]
      else hexDigits f (n / 16) ++ [hexDigit (n mod 16)]
  end.

(** [%04x]: at least four digits, padded with zeros on the left. *)
Definition hex04 (n : nat) : gostring :=
  let ds := hexDigits (S n) n in
  repeat "0"%char (4 - length ds) ++ ds.

(** [fmt.Sprintf("[%s_%04x]", key, counter)]. *)
Definition Sprintf_placeholder (key : gostring) (counter : nat) : gostring :=
  str "[" ++ key ++ str "_" ++ hex04 counter ++ str "]".

(** The values a [map[string]interface{}] of the exchange holds. *)
Inductive any : Type :=
| MapStringString (m : gomap gostring)
| OtherValue.

Definition Metadata := gomap any.

Record PIIMaskingRegexPolicyParams : Type := mkParams {
  PIIEntities : gomap Regexp;
  JsonPath : gostring;
  RedactPII : bool
}.

(** The built-in toggles of [parseParams], after the custom entities
    have been collected in [piiEntities]. *)
Definition enableBuiltin (on : bool) (name : gostring) (re : regex)
  (piiEntities : option (gomap Regexp)) : option (gomap Regexp) :=
  match piiEntities with
  | None => None
  | Some m =>
      if on then
        if exists_key name m then None
        else Some (store name (MustCompile re) m)
      else Some m
  end.

Definition parseBuiltins (custom : gomap Regexp)
  (enableEmail enablePhone enableSSN : bool) : option (gomap Regexp) :=
  match
    enableBuiltin enableSSN DefaultSSNEntityName DefaultSSNRegex
      (enableBuiltin enablePhone DefaultPhoneEntityName DefaultPhoneRegex
         (enableBuiltin enableEmail DefaultEmailEntityName DefaultEmailRegex
            (Some custom)))
  with
  | None => None
  | Some m => if length m =? 0 then None else Some m
  end.

(** The state of the first pass of [maskPIIFromContent]. *)
Record MaskState : Type := mkMaskState {
  allMatches : gomap gostring;
  maskedPIIEntities : gomap gostring;
  counter : nat
}.

(** [placeholderPattern.MatchString(match)]. *)
Definition placeholderShaped (m : gostring) : bool :=
  MatchString (MustCompile placeholderPattern) m.

(** The body of the inner loop: one match of the detector [key]. *)
Definition claimMatch (key : gostring) (st : MaskState) (m : gostring)
  : MaskState :=
  if negb (exists_key m (allMatches st)) && negb (placeholderShaped m)
  then
    let placeholder := Sprintf_placeholder key (counter st) in
    {| allMatches := store m placeholder (allMatches st);
       maskedPIIEntities := store m placeholder (maskedPIIEntities st);
       counter := S (counter st) |}
  else st.

(** The body of the outer loop: every match of one detector. *)
Definition claimEntity (content : gostring) (st : MaskState)
  (e : gostring * Regexp) : MaskState :=
  fold_left (claimMatch (fst e)) (FindAllString (snd e) content) st.

Definition firstPass (rt : Runtime) (content : gostring)
  (piiEntities : gomap Regexp) : MaskState :=
  fold_left (claimEntity content) (range rt piiEntities)
    {| allMatches := []; maskedPIIEntities := []; counter := 0 |}.

(** The literals in the order of the second pass. *)
Definition originalsOf (rt : Runtime) (allMatches : gomap gostring)
  : list gostring :=
  sortByLenDesc (map fst (range rt allMatches)).

Definition secondPass (allMatches : gomap gostring)
  (originals : list gostring) (maskedContent : gostring) : gostring :=
  fold_left (fun mc original => ReplaceAll mc original (index allMatches original))
    originals maskedContent.

Definition error := gostring.

(** [maskPIIFromContent]: the masked content, the error (always [nil])
    and the metadata after the call. *)
Definition maskPIIFromContent (rt : Runtime) (content : gostring)
  (piiEntities : gomap Regexp) (metadata : Metadata)
  : gostring * option error * Metadata :=
  match content with
  | [] => ([], None, metadata)
  | _ :: _ =>
      let st := firstPass rt content piiEntities in
      let maskedContent :=
        secondPass (allMatches st) (originalsOf rt (allMatches st)) content in
      let metadata' :=
        if 0 <? length (maskedPIIEntities st)
        then store MetadataKeyPIIEntities
               (MapStringString (maskedPIIEntities st)) metadata
        else metadata in
      if 0 <? length (allMatches st)
      then (maskedContent, None, metadata')
      else ([], None, metadata')
  end.

(** [redactPIIFromContent]. *)
Definition redactStep (acc : gostring * bool) (e : gostring * Regexp)
  : gostring * bool :=
  let (maskedContent, foundAndMasked) := acc in
  if MatchString (snd e) maskedContent
  then (ReplaceAllString (snd e) maskedContent (str "*****"), true)
  else (maskedContent, foundAndMasked).

Definition redactPIIFromContent (rt : Runtime) (content : gostring)
  (piiEntities : gomap Regexp) : gostring :=
  match content with
  | [] => []
  | _ :: _ =>
      let (maskedContent, foundAndMasked) :=
        fold_left redactStep (range rt piiEntities) (content, false) in
      if foundAndMasked then maskedContent else []
  end.

(** [restorePIIInResponse]. *)
Definition restoreStep (transformedContent : gostring)
  (e : gostring * gostring) : gostring :=
  let (original, placeholder) := e in
  if Contains transformedContent placeholder
  then ReplaceAll transformedContent placeholder original
  else transformedContent.

Definition restorePIIInResponse (rt : Runtime) (originalContent : gostring)
  (maskedPIIEntities : gomap gostring) : gostring :=
  if length maskedPIIEntities =? 0 then originalContent
  else fold_left restoreStep (range rt maskedPIIEntities) originalContent.

(** [buildErrorResponse]: the status code and the message of the JSON
    body. *)
Inductive RequestAction : Type :=
| UpstreamRequestModifications (Body : option gostring)
| ImmediateResponse (StatusCode : nat) (message : gostring).

Inductive ResponseAction : Type :=
| UpstreamResponseModifications (Body : option gostring).

Definition buildErrorResponse (reason : gostring) : RequestAction :=
  ImmediateResponse APIMInternalErrorCode
    (str "Error occurred during pii-masking-regex mediation: " ++ reason).

(** [ctx.Body.Content] and [ctx.Metadata]; [None] when the body or its
    content is [nil]. *)
Record RequestContext : Type := mkRequestContext {
  Body : option gostring;
  ReqMetadata : Metadata
}.

Record ResponseContext : Type := mkResponseContext {
  ResponseBody : option gostring;
  RespMetadata : Metadata
}.

(** [OnResponse]. *)
Definition OnResponse (rt : Runtime) (p : PIIMaskingRegexPolicyParams)
  (ctx : ResponseContext) : ResponseAction :=
  if RedactPII p then UpstreamResponseModifications None
  else
    match lookup MetadataKeyPIIEntities (RespMetadata ctx) with
    | None => UpstreamResponseModifications None
    | Some OtherValue => UpstreamResponseModifications None
    | Some (MapStringString maskedPIIMap) =>
        match ResponseBody ctx with
        | None => UpstreamResponseModifications None
        | Some payload =>
            let restoredContent :=
              restorePIIInResponse rt payload maskedPIIMap in
            if negb (eqs restoredContent payload)
            then UpstreamResponseModifications (Some restoredContent)
            else UpstreamResponseModifications None
        end
    end.

Section Collaborators.

(** The decoded payload, [map[string]interface{}]. *)
Variable JSONObject : Type.
(** [json.Unmarshal] into a [map[string]interface{}]; [None] is an
    error. *)
Variable json_Unmarshal : gostring -> option JSONObject.
(** [utils.SetValueAtJSONPath]: the object after the update, or an
    error. *)
Variable SetValueAtJSONPath :
  JSONObject -> gostring -> gostring -> option JSONObject.
(** [json.Marshal]. *)
Variable json_Marshal : JSONObject -> option gostring.
(** [utils.ExtractStringValueFromJsonpath]. *)
Variable ExtractStringValueFromJsonpath :
  gostring -> gostring -> gostring + error.

(** [updatePayloadWithMaskedContent]. *)
Definition updatePayloadWithMaskedContent
  (originalPayload extractedValue modifiedContent jsonPath : gostring)
  : gostring :=
  match jsonPath with
  | [] => modifiedContent
  | _ :: _ =>
      match json_Unmarshal originalPayload with
      | None => modifiedContent
      | Some jsonData =>
          match SetValueAtJSONPath jsonData jsonPath modifiedContent with
          | None => originalPayload
          | Some jsonData' =>
              match json_Marshal jsonData' with
              | None => originalPayload
              | Some updatedPayload => updatedPayload
              end
          end
      end
  end.

(** The cleaning step of [OnRequest]. *)
Definition cleanExtracted (extractedValue : gostring) : gostring :=
  TrimSpace (ReplaceAllString textCleanRegexCompiled extractedValue []).

(** [OnRequest]: the action and the metadata after the call. *)
Definition OnRequest (rt : Runtime) (p : PIIMaskingRegexPolicyParams)
  (ctx : RequestContext) : RequestAction * Metadata :=
  if length (PIIEntities p) =? 0
  then (UpstreamRequestModifications None, ReqMetadata ctx)
  else
    match Body ctx with
    | None => (UpstreamRequestModifications None, ReqMetadata ctx)
    | Some payload =>
        match ExtractStringValueFromJsonpath payload (JsonPath p) with
        | inr err =>
            (buildErrorResponse
               (str "error extracting value from JSONPath: " ++ err),
             ReqMetadata ctx)
        | inl extracted =>
            let extractedValue := cleanExtracted extracted in
            let '(modifiedContent, err, metadata) :=
              if RedactPII p
              then (redactPIIFromContent rt extractedValue (PIIEntities p),
                    None, ReqMetadata ctx)
              else maskPIIFromContent rt extractedValue (PIIEntities p)
                     (ReqMetadata ctx) in
            match err with
            | Some e =>
                (buildErrorResponse (str "error masking PII: " ++ e),
                 metadata)
            | None =>
                if negb (eqs modifiedContent []) &&
                   negb (eqs modifiedContent extractedValue)
                then (UpstreamRequestModifications
                        (Some (updatePayloadWithMaskedContent payload
                                 extractedValue modifiedContent
                                 (JsonPath p))),
                      metadata)
                else (UpstreamRequestModifications None, metadata)
            end
        end
    end.

End Collaborators.

Unset Implicit Arguments.

(* ================================================================== *)
(** ** Vocabulary of the properties *)

(** Reading a hexadecimal numeral back. *)
Definition hexValue (c : ascii) : nat :=
  let n := nat_of_ascii c in
  if n <? 58 then n - 48 else n - 87.

Definition hexNumber (ds : gostring) : nat :=
  fold_left (fun a d => 16 * a + hexValue d) ds 0.

(** [[0-9a-f]] and [[A-Z_]]. *)
Definition isHexDigit (c : ascii) : bool :=
  class_mem false [("0", "9"); ("a", "f")]%char c.

Definition isEntityChar (c : ascii) : bool :=
  class_mem false [("A", "Z"); ("_", "_")]%char c.

(** The placeholder shape in words: a bracket, an entity name over A-Z
    and the underscore, an underscore, four lowercase hexadecimal
    digits, a bracket. *)
Definition PlaceholderShape (l : gostring) : Prop :=
  exists name h,
    l = str "[" ++ name ++ str "_" ++ h ++ str "]" /\
    name <> [] /\
    forallb isEntityChar name = true /\
    length h = 4 /\
    forallb isHexDigit h = true.

(** The part of [placeholderPattern] after the entity name:
    [_[0-9a-f]{4}\]$]. *)
Definition shapeTail : regex :=
  seq [Lit "_"; Times (Class false [("0", "9"); ("a", "f")]%char) 4;
       Lit "]"; Eot].

(** The correlation entry a masking call builds. *)
Definition correlationEntry (rt : Runtime) (content : gostring)
  (piiEntities : gomap Regexp) : gomap gostring :=
  maskedPIIEntities (firstPass rt content piiEntities).

(** Every distinct match of every detector that is not shaped like a
    placeholder, in any order. *)
Definition matchedLiterals (content : gostring) (piiEntities : gomap Regexp)
  : list gostring :=
  nodup gostring_dec
    (filter (fun l => negb (placeholderShaped l))
       (flat_map (fun e => FindAllString (snd e) content) piiEntities)).

(** What the loops keep true: the two maps are equal, the counter is the
    number of entries, no literal has two entries, and the entry number
    [i] holds a placeholder built with the counter value [i]. *)
Record maskInv (names : list gostring) (st : MaskState) : Prop := {
  inv_same : maskedPIIEntities st = allMatches st;
  inv_counter : counter st = length (allMatches st);
  inv_nodup : NoDup (map fst (allMatches st));
  inv_nth : forall i l p,
      nth_error (allMatches st) i = Some (l, p) ->
      exists key, In key names /\ p = Sprintf_placeholder key i
}.

(** The order of the second pass: no literal comes before a longer
    one. *)
Definition longerFirst (a b : gostring) : Prop := length b <= length a.

(** The detector set of the reference scenarios: the built-in toggles
    [email] and [phone]. *)
Definition scenarioEntities : gomap Regexp :=
  [(DefaultEmailEntityName, MustCompile DefaultEmailRegex);
   (DefaultPhoneEntityName, MustCompile DefaultPhoneRegex)].

Definition scenarioContent : gostring :=
  str "Contact jane@example.com or 555-123-4567".







(** Collaborators for the examples: a decoder that rejects a payload
    that does not open a JSON object, as [json.Unmarshal] into a
    [map[string]interface{}] does; an update that fails; an encoder and
    an extractor that hand the text through. *)
Definition unmarshalObject (payload : gostring) : option gostring :=
  match payload with
  | "{"%char :: _ => Some payload
  | _ => None
  end.


Definition marshalRaw (d : gostring) : option gostring := Some d.

Definition extractWhole (payload _ : gostring) : gostring + error :=
  inl payload.

(** An update that puts the value in place of the whole object. *)
Definition setRoot (_ _ value : gostring) : option gostring := Some value.

(** A text between double quotes. *)
Definition quoted (s : gostring) : gostring := quote :: s ++ [quote].


(** The prefixes of a text. *)
Fixpoint prefixes (s : gostring) : list gostring :=
  [] :: match s with
        | [] => []
        | c :: s' => map (cons c) (prefixes s')
        end.

(** Does the text hold a substring of the placeholder shape? *)
Fixpoint containsPlaceholderShape (s : gostring) : bool :=
  existsb placeholderShaped (prefixes s) ||
  match s with
  | [] => false
  | _ :: s' => containsPlaceholderShape s'
  end.

(** A custom detector for runs of digits, [[0-9]+]. *)
Definition numberEntities : gomap Regexp :=
  [(str "NUM", MustCompile (Plus digit))].

(** Two detectors that overlap: printable runs and digit runs. *)
Definition tokenEntities : gomap Regexp :=
  [(str "TOKEN", MustCompile (Plus (Class false [("!", "~")]%char)));
   (str "NUM", MustCompile (Plus digit))].

Definition isBracket (c : ascii) : bool :=
  Ascii.eqb c "[" || Ascii.eqb c "]".

(** A text between brackets with no bracket inside. *)
Definition Atom (p : gostring) : Prop :=
  exists body,
    p = "["%char :: body ++ ["]"%char] /\
    forallb (fun c => negb (isBracket c)) body = true.

(** An entity name as [parseParams] accepts it: [^[A-Z_]+$]. *)
Definition validName (key : gostring) : Prop :=
  key <> [] /\ forallb isEntityChar key = true.

(** The literals in the order of the second pass, each with its
    placeholder. *)
Definition substitutionOrder (rt : Runtime) (entry : gomap gostring)
  : list (gostring * gostring) :=
  map (fun l => (l, index entry l)) (originalsOf rt entry).

(* ================================================================== *)
(** ** Construction of the policy: [parseParams] and [GetPolicy] *)

Unset Elimination Schemes.

(** A value of type [interface{}] among the policy parameters. *)
Inductive iface : Type :=
| IString (s : gostring)
| IBool (b : bool)
| IArray (items : list iface)
| IObject (fields : list (gostring * iface))
| IOther.

Set Elimination Schemes.

(** The errors of [parseParams], one constructor for each [fmt.Errorf];
    the index or the name is what the message is formatted with. *)
Inductive ParamError : Type :=
| ErrUnmarshalEntities        (* error unmarshaling PII entities: %w *)
| ErrItemNotObject (idx : nat)
                              (* 'customPIIEntities[%d]' must be an object *)
| ErrEntitiesType             (* must be an array or JSON string *)
| ErrEntityName (i : nat)     (* .piiEntity is required and must be a
                                 non-empty string *)
| ErrEntityNamePattern (i : nat)
                              (* .piiEntity must match ^[A-Z_]+$ *)
| ErrEntityRegex (i : nat)    (* .piiRegex is required and must be a
                                 non-empty string *)
| ErrEntityRegexInvalid (i : nat)
                              (* .piiRegex is invalid: %w *)
| ErrDuplicate (name : gostring)
                              (* duplicate piiEntity: %q *)
| ErrBool (key : gostring)    (* '%s' must be a boolean *)
| ErrNoDetector               (* at least one PII detector must be
                                 configured ... *)
| ErrJsonPath                 (* 'jsonPath' must be a string *)
| ErrRedactPII.               (* 'redactPII' must be a boolean *)

(** The pattern compiled in the validation loop, [^[A-Z_]+$]. *)
Definition entityNamePattern : regex :=
  seq [Bot; Plus (Class false [("A", "Z"); ("_", "_")]%char); Eot].

(** [parseBoolParam]. *)
Definition parseBoolParam (params : gomap iface) (key : gostring)
  : bool * option ParamError :=
  match lookup key params with
  | None => (false, None)
  | Some (IBool val) => (val, None)
  | Some _ => (false, Some (ErrBool key))
  end.

(** The case [[]interface{}] of the type switch: every item must be an
    object; the first one that is not stops the loop. *)
Fixpoint objectsOf (idx : nat) (v : list iface)
  : ParamError + list (gomap iface) :=
  match v with
  | [] => inr []
  | IObject itemMap :: rest =>
      match objectsOf (S idx) rest with
      | inl err => inl err
      | inr piiEntitiesArray => inr (itemMap :: piiEntitiesArray)
      end
  | _ :: _ => inl (ErrItemNotObject idx)
  end.

Section Parameters.

(** [json.Unmarshal] of a string into a [[]map[string]interface{}]. *)
Variable json_UnmarshalEntities : gostring -> option (list (gomap iface)).
(** [regexp.Compile]. *)
Variable regexp_Compile : gostring -> option Regexp.

(** The type switch on [params["customPIIEntities"]]. *)
Definition entitiesArray (piiEntitiesRaw : iface)
  : ParamError + list (gomap iface) :=
  match piiEntitiesRaw with
  | IString v =>
      match json_UnmarshalEntities v with
      | None => inl ErrUnmarshalEntities
      | Some piiEntitiesArray => inr piiEntitiesArray
      end
  | IArray v => objectsOf 0 v
  | _ => inl ErrEntitiesType
  end.

(** The validation loop over the custom entities, from the index [i]. *)
Fixpoint parseCustom (i : nat) (piiEntitiesArray : list (gomap iface))
  (piiEntities : gomap Regexp) : ParamError + gomap Regexp :=
  match piiEntitiesArray with
  | [] => inr piiEntities
  | entityConfig :: rest =>
      match lookup (str "piiEntity") entityConfig with
      | Some (IString piiEntity) =>
          if eqs piiEntity [] then inl (ErrEntityName i)
          else if negb (MatchString (MustCompile entityNamePattern) piiEntity)
          then inl (ErrEntityNamePattern i)
          else
            match lookup (str "piiRegex") entityConfig with
            | Some (IString piiRegex) =>
                if eqs piiRegex [] then inl (ErrEntityRegex i)
                else
                  match regexp_Compile piiRegex with
                  | None => inl (ErrEntityRegexInvalid i)
                  | Some compiledPattern =>
                      if exists_key piiEntity piiEntities
                      then inl (ErrDuplicate piiEntity)
                      else parseCustom (S i) rest
                             (store piiEntity compiledPattern piiEntities)
                  end
            | _ => inl (ErrEntityRegex i)
            end
      | _ => inl (ErrEntityName i)
      end
  end.

(** One built-in toggle, with the error of a name already taken. *)
Definition addBuiltin (on : bool) (name : gostring) (re : regex)
  (piiEntities : gomap Regexp) : ParamError + gomap Regexp :=
  match enableBuiltin on name re (Some piiEntities) with
  | None => inl (ErrDuplicate name)
  | Some m => inr m
  end.

(** The lines of [parseParams] that build the detector set. *)
Definition parseEntities (params : gomap iface)
  : ParamError + gomap Regexp :=
  match
    match lookup (str "customPIIEntities") params with
    | None => inr []
    | Some piiEntitiesRaw =>
        match entitiesArray piiEntitiesRaw with
        | inl err => inl err
        | inr piiEntitiesArray => parseCustom 0 piiEntitiesArray []
        end
    end
  with
  | inl err => inl err
  | inr custom =>
      match parseBoolParam params (str "email") with
      | (_, Some err) => inl err
      | (enableEmail, None) =>
      match parseBoolParam params (str "phone") with
      | (_, Some err) => inl err
      | (enablePhone, None) =>
      match parseBoolParam params (str "ssn") with
      | (_, Some err) => inl err
      | (enableSSN, None) =>
      match addBuiltin enableEmail DefaultEmailEntityName
              DefaultEmailRegex custom with
      | inl err => inl err
      | inr m1 =>
      match addBuiltin enablePhone DefaultPhoneEntityName
              DefaultPhoneRegex m1 with
      | inl err => inl err
      | inr m2 =>
      match addBuiltin enableSSN DefaultSSNEntityName
              DefaultSSNRegex m2 with
      | inl err => inl err
      | inr piiEntities =>
          if length piiEntities =? 0 then inl ErrNoDetector
          else inr piiEntities
      end end end end end end
  end.

(** [parseParams]: the struct as it stands at the return, and the
    error. *)
Definition parseParams (params : gomap iface)
  : PIIMaskingRegexPolicyParams * option ParamError :=
  let result :=
    {| PIIEntities := []; JsonPath := str "$.messages";
       RedactPII := false |} in
  match parseEntities params with
  | inl err => (result, Some err)
  | inr piiEntities =>
      let result :=
        {| PIIEntities := piiEntities; JsonPath := JsonPath result;
           RedactPII := RedactPII result |} in
      match
        match lookup (str "jsonPath") params with
        | None => inr result
        | Some (IString jsonPath) =>
            inr {| PIIEntities := PIIEntities result; JsonPath := jsonPath;
                   RedactPII := RedactPII result |}
        | Some _ => inl result
        end
      with
      | inl result => (result, Some ErrJsonPath)
      | inr result =>
          match lookup (str "redactPII") params with
          | None => (result, None)
          | Some (IBool redactPII) =>
              ({| PIIEntities := PIIEntities result;
                  JsonPath := JsonPath result;
                  RedactPII := redactPII |}, None)
          | Some _ => (result, Some ErrRedactPII)
          end
      end
  end.

(** [PIIMaskingRegexPolicy]. *)
Record PIIMaskingRegexPolicy : Type := mkPolicy {
  params : PIIMaskingRegexPolicyParams
}.

(** [GetPolicy]: the policy, or the error of [parseParams] (wrapped as
    "invalid parameters: %w"). *)
Definition GetPolicy (parameters : gomap iface)
  : ParamError + PIIMaskingRegexPolicy :=
  match parseParams parameters with
  | (_, Some err) => inl err
  | (policyParams, None) => inr {| params := policyParams |}
  end.

End Parameters.

(* ================================================================== *)
(** ** Vocabulary of the construction and examples *)

(** A detector set as the construction leaves it. *)
Definition wellFormedEntities (m : gomap Regexp) : Prop :=
  NoDup (map fst m) /\ forall key, In key (map fst m) -> validName key.

(** Collaborators for the examples: a compiler that knows the pattern
    [[0-9]+] and a decoder that fails. *)
Definition compileKnown (pattern : gostring) : option Regexp :=
  if eqs pattern (str "[0-9]+") then Some (MustCompile (Plus digit))
  else None.

Definition unmarshalFails (_ : gostring) : option (list (gomap iface)) :=
  None.

Definition exampleParameters : gomap iface :=
  [(str "customPIIEntities",
    IArray [IObject [(str "piiEntity", IString (str "NUM"));
                     (str "piiRegex", IString (str "[0-9]+"))]]);
   (str "email", IBool true);
   (str "jsonPath", IString [])].

(** The policy that [GetPolicy] builds from the example parameters. *)
Definition examplePolicy : PIIMaskingRegexPolicy :=
  {| params :=
       {| PIIEntities :=
            [(str "NUM", MustCompile (Plus digit));
             (DefaultEmailEntityName, MustCompile DefaultEmailRegex)];
          JsonPath := []; RedactPII := false |} |}.

(** An extractor that finds nothing at the path. *)
Definition extractFails (_ _ : gostring) : gostring + error :=
  inr (str "path not found").

(* ================================================================== *)
(** ** Strings and maps: basic facts *)

Lemma eqs_true (a b : gostring) : eqs a b = true <-> a = b.
Proof.
  unfold eqs. destruct (gostring_dec a b); split; congruence.
Qed.

Lemma eqs_false (a b : gostring) : eqs a b = false <-> a <> b.
Proof.
  unfold eqs. destruct (gostring_dec a b); split; congruence.
Qed.

Lemma eqs_refl (a : gostring) : eqs a a = true.
Proof. now apply eqs_true. Qed.

Lemma lookup_None_notin (V : Type) (k : gostring) (m : gomap V) :
  lookup k m = None <-> ~ In k (map fst m).
Proof.
  induction m as [|[k' v] m IH]; simpl.
  - tauto.
  - destruct (eqs k k') eqn:E.
    + apply eqs_true in E. split; [discriminate | intros H; exfalso; auto].
    + apply eqs_false in E. rewrite IH. split.
      * intros H [H1 | H1]; [congruence | auto].
      * intros H H1. auto.
Qed.

Lemma exists_key_false (V : Type) (k : gostring) (m : gomap V) :
  exists_key k m = false <-> ~ In k (map fst m).
Proof.
  unfold exists_key. rewrite <- lookup_None_notin.
  destruct (lookup k m); split; congruence.
Qed.

Lemma exists_key_true (V : Type) (k : gostring) (m : gomap V) :
  exists_key k m = true <-> In k (map fst m).
Proof.
  destruct (exists_key k m) eqn:E.
  - split; [intros _ | reflexivity].
    destruct (in_dec gostring_dec k (map fst m)) as [H | H]; [exact H |].
    apply exists_key_false in H. congruence.
  - apply exists_key_false in E. split; [discriminate | tauto].
Qed.

(** Storing under a key the map does not hold appends the entry. *)
Lemma store_fresh (V : Type) (k : gostring) (v : V) (m : gomap V) :
  ~ In k (map fst m) -> store k v m = m ++ [(k, v)].
Proof.
  induction m as [|[k' v'] m IH]; simpl; intros H.
  - reflexivity.
  - destruct (eqs k k') eqn:E.
    + apply eqs_true in E. exfalso. auto.
    + rewrite IH; auto.
Qed.

Lemma lookup_In (V : Type) (k : gostring) (v : V) (m : gomap V) :
  NoDup (map fst m) -> In (k, v) m -> lookup k m = Some v.
Proof.
  induction m as [|[k' v'] m IH]; simpl; intros ND H.
  - contradiction.
  - inversion ND as [|? ? Hn ND']; subst.
    destruct H as [H | H].
    + inversion H; subst. now rewrite eqs_refl.
    + destruct (eqs k k') eqn:E.
      * apply eqs_true in E. subst. exfalso. apply Hn.
        change k' with (fst (k', v)). now apply in_map.
      * auto.
Qed.

(* ================================================================== *)
(** ** The matcher: single characters *)

Lemma in_range_single (a c : ascii) : in_range c (a, a) = Ascii.eqb c a.
Proof.
  unfold in_range. simpl.
  destruct (Ascii.eqb c a) eqn:E.
  - apply Ascii.eqb_eq in E. subst.
    rewrite Nat.leb_refl. reflexivity.
  - apply Ascii.eqb_neq in E.
    destruct (nat_of_ascii a <=? nat_of_ascii c) eqn:E1; [| reflexivity].
    destruct (nat_of_ascii c <=? nat_of_ascii a) eqn:E2; [| reflexivity].
    apply Nat.leb_le in E1, E2. exfalso. apply E.
    rewrite <- (ascii_nat_embedding c), <- (ascii_nat_embedding a).
    f_equal. lia.
Qed.

Lemma run_Lit (a : ascii) (p : option ascii) (s : gostring) (k : kont) :
  run (Lit a) p s k =
  match s with
  | c :: s' => if Ascii.eqb c a then k (Some c) s' else None
  | [] => None
  end.
Proof.
  destruct s as [|c s']; [reflexivity |].
  unfold Lit. cbn [run]. unfold class_mem. cbn [existsb andb orb].
  now rewrite in_range_single, !orb_false_r.
Qed.

Lemma run_Class (f : bool) (rs : list (ascii * ascii)) (p : option ascii)
  (s : gostring) (k : kont) :
  run (Class f rs) p s k =
  match s with
  | c :: s' => if class_mem f rs c then k (Some c) s' else None
  | [] => None
  end.
Proof. reflexivity. Qed.

(** The matcher on the examples of the [regexp] package documentation
    and on the built-in patterns. *)
Example FindAllString_paranormal :
  FindAllString
    (MustCompile (Cat (Lit "a") (Class false [(" ", "~")]%char)))
    (str "paranormal")
  = [str "ar"; str "an"; str "al"].
Proof. vm_compute. reflexivity. Qed.

Example ReplaceAllString_axb :
  ReplaceAllString
    (MustCompile (seq [Lit "a"; Star (Lit "x"); Lit "b"]))
    (str "-ab-axxb-") (str "T")
  = str "-T-T-".
Proof. vm_compute. reflexivity. Qed.

Example FindAllString_empty_matches :
  FindAllString (MustCompile (Star (Lit "a"))) (str "baaab")
  = [[]; str "aaa"; []].
Proof. vm_compute. reflexivity. Qed.

Example phone_matches :
  FindAllString (MustCompile DefaultPhoneRegex)
    (str "call +1 (415) 555-2671, 555-234-4567 or 555-123-4567")
  = [str "+1 (415) 555-2671"; str "555-234-4567"].
Proof. vm_compute. reflexivity. Qed.

Example ssn_matches :
  FindAllString (MustCompile DefaultSSNRegex)
    (str "123-45-6789, 000-12-3456, 666-12-3456, 078051120")
  = [str "123-45-6789"; str "078051120"].
Proof. vm_compute. reflexivity. Qed.

Example placeholderShaped_examples :
  map (fun s => placeholderShaped s)
    [str "[EMAIL_0000]"; str "[__00af]"; str "[EMAIL_000]";
     str "[EMAIL_0000] "; str "[email_0000]"; str "[A_B_12345]"]
  = [true; true; false; false; false; false].
Proof. vm_compute. reflexivity. Qed.

Example Sprintf_placeholder_examples :
  [Sprintf_placeholder (str "EMAIL") 0; Sprintf_placeholder (str "X") 26;
   Sprintf_placeholder (str "X") (16 * 4096 - 1);
   Sprintf_placeholder (str "X") (16 * 4096)]
  = [str "[EMAIL_0000]"; str "[X_001a]"; str "[X_ffff]"; str "[X_10000]"].
Proof. vm_compute. reflexivity. Qed.

(* ================================================================== *)
(** ** Placeholders are determined by their counter *)

Lemma hexDigit_spec (n : nat) :
  n < 16 -> hexValue (hexDigit n) = n /\ isHexDigit (hexDigit n) = true.
Proof.
  intros H.
  do 16 (destruct n as [|n]; [split; reflexivity |]). lia.
Qed.

Lemma hexNumber_snoc (ds : gostring) (d : ascii) :
  hexNumber (ds ++ [d]) = 16 * hexNumber ds + hexValue d.
Proof. unfold hexNumber. now rewrite fold_left_app. Qed.

Lemma hexDigits_spec (fuel n : nat) :
  n < fuel ->
  hexNumber (hexDigits fuel n) = n /\
  Forall (fun c => isHexDigit c = true) (hexDigits fuel n).
Proof.
  revert n. induction fuel as [|f IH]; intros n H; [lia |].
  cbn [hexDigits]. destruct (n <? 16) eqn:E.
  - apply Nat.ltb_lt in E. destruct (hexDigit_spec _ E) as [H1 H2].
    split.
    + unfold hexNumber. cbn [fold_left]. lia.
    + constructor; [exact H2 | constructor].
  - apply Nat.ltb_ge in E.
    assert (Hd : n / 16 < f).
    { assert (n / 16 < n) by (apply Nat.div_lt; lia). lia. }
    destruct (IH _ Hd) as [H1 H2].
    assert (Hm : n mod 16 < 16) by (apply Nat.mod_upper_bound; lia).
    destruct (hexDigit_spec _ Hm) as [H3 H4].
    split.
    + rewrite hexNumber_snoc, H1, H3.
      pose proof (Nat.div_mod_eq n 16). lia.
    + apply Forall_app. split; [exact H2 | constructor; [exact H4 | constructor]].
Qed.

Lemma hexNumber_zeros (k : nat) (ds : gostring) :
  hexNumber (repeat "0"%char k ++ ds) = hexNumber ds.
Proof.
  unfold hexNumber. rewrite fold_left_app.
  replace (fold_left (fun a d => 16 * a + hexValue d) (repeat "0"%char k) 0)
    with 0; [reflexivity |].
  induction k as [|k IH]; simpl; [reflexivity | exact IH].
Qed.

Lemma hex04_value (n : nat) : hexNumber (hex04 n) = n.
Proof.
  unfold hex04. rewrite hexNumber_zeros.
  apply hexDigits_spec. lia.
Qed.

Lemma hex04_digits (n : nat) : Forall (fun c => isHexDigit c = true) (hex04 n).
Proof.
  unfold hex04. apply Forall_app. split.
  - apply Forall_forall. intros c Hc. apply repeat_spec in Hc. now subst.
  - apply hexDigits_spec. lia.
Qed.

Lemma hex04_inj (n m : nat) : hex04 n = hex04 m -> n = m.
Proof.
  intros H. rewrite <- (hex04_value n), <- (hex04_value m). now rewrite H.
Qed.

(** Two texts cut at their last occurrence of [x] have the same tail. *)
Lemma last_separator (A : Type) (x : A) (l1 l2 r1 r2 : list A) :
  ~ In x r1 -> ~ In x r2 ->
  l1 ++ x :: r1 = l2 ++ x :: r2 -> l1 = l2 /\ r1 = r2.
Proof.
  intros H1 H2 E.
  assert (R : rev r1 ++ x :: rev l1 = rev r2 ++ x :: rev l2).
  { apply (f_equal (@rev A)) in E.
    rewrite !rev_app_distr in E. simpl in E.
    now rewrite <- !app_assoc in E. }
  assert (G : forall a b u v : list A,
             ~ In x a -> ~ In x b -> a ++ x :: u = b ++ x :: v ->
             a = b /\ u = v).
  { clear. induction a as [|c a IH]; intros [|d b] u v Ha Hb E; simpl in *.
    - inversion E. auto.
    - inversion E; subst. exfalso. auto.
    - inversion E; subst. exfalso. auto.
    - inversion E; subst. destruct (IH b u v) as [-> ->]; auto. }
  destruct (G (rev r1) (rev r2) (rev l1) (rev l2)) as [Ha Hb].
  - now rewrite <- in_rev.
  - now rewrite <- in_rev.
  - exact R.
  - split.
    + rewrite <- (rev_involutive l1), <- (rev_involutive l2). now rewrite Hb.
    + rewrite <- (rev_involutive r1), <- (rev_involutive r2). now rewrite Ha.
Qed.

Lemma underscore_not_hex (h : gostring) :
  Forall (fun c => isHexDigit c = true) h -> ~ In "_"%char (h ++ str "]").
Proof.
  intros F H. apply in_app_or in H. destruct H as [H | H].
  - rewrite Forall_forall in F. apply F in H. discriminate.
  - simpl in H. destruct H as [H | []]. discriminate.
Qed.

(** The counter can be read back from a placeholder, whatever the
    entity name. *)
Lemma Sprintf_placeholder_inj (k1 k2 : gostring) (n1 n2 : nat) :
  Sprintf_placeholder k1 n1 = Sprintf_placeholder k2 n2 ->
  k1 = k2 /\ n1 = n2.
Proof.
  unfold Sprintf_placeholder. simpl. intros E. inversion E as [E'].
  destruct (last_separator _ "_"%char k1 k2
              (hex04 n1 ++ str "]") (hex04 n2 ++ str "]")) as [Hk Hh].
  - apply underscore_not_hex, hex04_digits.
  - apply underscore_not_hex, hex04_digits.
  - exact E'.
  - split; [exact Hk |].
    apply app_inv_tail in Hh. now apply hex04_inj.
Qed.

(* ================================================================== *)
(** ** The first pass of [maskPIIFromContent] *)

Lemma maskInv_init (names : list gostring) :
  maskInv names {| allMatches := []; maskedPIIEntities := []; counter := 0 |}.
Proof.
  split; simpl; auto.
  - constructor.
  - intros [|i] l p H; discriminate.
Qed.

Lemma NoDup_snoc (A : Type) (x : A) (l : list A) :
  NoDup l -> ~ In x l -> NoDup (l ++ [x]).
Proof.
  intros ND H.
  apply (Permutation_NoDup (l := x :: l)).
  - apply Permutation_cons_append.
  - now constructor.
Qed.

Lemma claimMatch_inv (names : list gostring) (key : gostring)
  (st : MaskState) (m : gostring) :
  In key names -> maskInv names st -> maskInv names (claimMatch key st m).
Proof.
  intros Hk [Hs Hc Hn Hi]. unfold claimMatch.
  destruct (exists_key m (allMatches st)) eqn:E; cbn [negb andb];
    [now constructor |].
  destruct (placeholderShaped m); cbn [negb andb];
    [now constructor |].
  apply exists_key_false in E.
  split; cbn [allMatches maskedPIIEntities counter].
  - now rewrite Hs.
  - rewrite store_fresh by exact E. rewrite length_app. simpl. lia.
  - rewrite store_fresh by exact E. rewrite map_app. simpl.
    now apply NoDup_snoc.
  - rewrite store_fresh by exact E. intros i l p H.
    destruct (Nat.lt_ge_cases i (length (allMatches st))) as [Hlt | Hge].
    + rewrite nth_error_app1 in H by exact Hlt. eauto.
    + rewrite nth_error_app2 in H by exact Hge.
      destruct (i - length (allMatches st)) as [|j] eqn:Ej; simpl in H.
      * inversion H; subst. exists key. split; [exact Hk |].
        f_equal. lia.
      * destruct j; discriminate.
Qed.

Lemma claimMatch_keys (key : gostring) (st : MaskState) (m l : gostring) :
  In l (map fst (allMatches (claimMatch key st m))) <->
  In l (map fst (allMatches st)) \/ (l = m /\ placeholderShaped m = false).
Proof.
  unfold claimMatch.
  destruct (exists_key m (allMatches st)) eqn:E; cbn [negb andb].
  - apply exists_key_true in E. split; [tauto |].
    intros [H | [-> _]]; assumption.
  - destruct (placeholderShaped m) eqn:P; cbn [negb andb].
    + split; [tauto | intros [H | [_ H]]; [assumption | discriminate]].
    + apply exists_key_false in E. cbn [allMatches].
      rewrite store_fresh by exact E. rewrite map_app, in_app_iff. simpl.
      split.
      * intros [H | [H | []]]; [tauto | right; split; congruence].
      * intros [H | [H _]]; [tauto | right; left; congruence].
Qed.

Lemma claimEntity_inv (names : list gostring) (content : gostring)
  (st : MaskState) (e : gostring * Regexp) :
  In (fst e) names -> maskInv names st ->
  maskInv names (claimEntity content st e).
Proof.
  intros Hk. unfold claimEntity.
  generalize (FindAllString (snd e) content) as ms.
  intros ms. revert st.
  induction ms as [|m ms IH]; intros st Hst; simpl.
  - exact Hst.
  - apply IH. now apply claimMatch_inv.
Qed.

Lemma claimEntity_keys (content : gostring) (st : MaskState)
  (e : gostring * Regexp) (l : gostring) :
  In l (map fst (allMatches (claimEntity content st e))) <->
  In l (map fst (allMatches st)) \/
  (In l (FindAllString (snd e) content) /\ placeholderShaped l = false).
Proof.
  unfold claimEntity.
  generalize (FindAllString (snd e) content) as ms.
  intros ms. revert st.
  induction ms as [|m ms IH]; intros st; simpl.
  - tauto.
  - rewrite IH, claimMatch_keys. split.
    + intros [[H | [-> H]] | [H1 H2]]; auto.
    + intros [H | [[-> | H1] H2]]; auto.
Qed.

Lemma claimAll_inv (names : list gostring) (content : gostring)
  (es : gomap Regexp) (st : MaskState) :
  incl (map fst es) names -> maskInv names st ->
  maskInv names (fold_left (claimEntity content) es st).
Proof.
  revert st. induction es as [|e es IH]; intros st Hin Hst; simpl.
  - exact Hst.
  - apply IH.
    + intros k Hk. apply Hin. now right.
    + apply claimEntity_inv; [apply Hin; now left | exact Hst].
Qed.

Lemma claimAll_keys (content : gostring) (es : gomap Regexp)
  (st : MaskState) (l : gostring) :
  In l (map fst (allMatches (fold_left (claimEntity content) es st))) <->
  In l (map fst (allMatches st)) \/
  (exists e, In e es /\ In l (FindAllString (snd e) content) /\
             placeholderShaped l = false).
Proof.
  revert st. induction es as [|e es IH]; intros st; simpl.
  - split; [tauto | intros [H | [e [[] _]]]; exact H].
  - rewrite IH, claimEntity_keys. split.
    + intros [[H | [H1 H2]] | [e' [H1 H2]]]; eauto 6.
    + intros [H | [e' [[-> | H1] H2]]]; eauto 6.
Qed.

Section FirstPass.

Variable rt : Runtime.
Variables (content : gostring) (piiEntities : gomap Regexp).

Lemma firstPass_inv_range :
  maskInv (map fst (range rt piiEntities))
    (firstPass rt content piiEntities).
Proof.
  unfold firstPass. apply claimAll_inv; [| apply maskInv_init].
  intros k Hk. exact Hk.
Qed.

Lemma correlationEntry_allMatches :
  correlationEntry rt content piiEntities =
  allMatches (firstPass rt content piiEntities).
Proof. unfold correlationEntry. apply firstPass_inv_range. Qed.

(** A literal with an entry was matched and is not shaped like a
    placeholder, whatever the runtime does. *)
Lemma firstPass_keys_unshaped (l : gostring) :
  In l (map fst (allMatches (firstPass rt content piiEntities))) ->
  placeholderShaped l = false.
Proof.
  unfold firstPass. rewrite claimAll_keys. simpl.
  intros [[] | [e [_ [_ H]]]]. exact H.
Qed.

Hypothesis rt_fair : fair rt.

Lemma firstPass_inv :
  maskInv (map fst piiEntities) (firstPass rt content piiEntities).
Proof.
  destruct firstPass_inv_range as [H1 H2 H3 H4].
  split; auto.
  intros i l p H. destruct (H4 _ _ _ H) as [key [Hk Hp]].
  exists key. split; [| exact Hp].
  apply (Permutation_in key (Permutation_map fst
    (Permutation_sym (rt_fair _ piiEntities)))). exact Hk.
Qed.

Lemma firstPass_keys (l : gostring) :
  In l (map fst (allMatches (firstPass rt content piiEntities))) <->
  exists key re, In (key, re) piiEntities /\
                 In l (FindAllString re content) /\
                 placeholderShaped l = false.
Proof.
  unfold firstPass. rewrite claimAll_keys. simpl. split.
  - intros [[] | [[key re] [H1 H2]]]. exists key, re. split; [| exact H2].
    apply (Permutation_in _ (Permutation_sym (rt_fair _ piiEntities))).
    exact H1.
  - intros [key [re [H1 H2]]]. right. exists (key, re). split; [| exact H2].
    apply (Permutation_in _ (rt_fair _ piiEntities)). exact H1.
Qed.

Lemma matchedLiterals_spec (l : gostring) :
  In l (matchedLiterals content piiEntities) <->
  exists key re, In (key, re) piiEntities /\
                 In l (FindAllString re content) /\
                 placeholderShaped l = false.
Proof.
  unfold matchedLiterals.
  rewrite nodup_In, filter_In, in_flat_map, negb_true_iff. split.
  - intros [[[key re] [H1 H2]] H3]. exists key, re. auto.
  - intros [key [re [H1 [H2 H3]]]]. split; [| exact H3].
    exists (key, re). auto.
Qed.

(** The placeholders of the entry are pairwise distinct. *)
Lemma correlationEntry_values_nodup :
  NoDup (map snd (correlationEntry rt content piiEntities)).
Proof.
  rewrite correlationEntry_allMatches.
  destruct firstPass_inv as [_ _ _ Hi].
  apply (proj2 (NoDup_nth_error _)).
  intros i j Hlt E.
  rewrite length_map in Hlt.
  rewrite !nth_error_map in E.
  destruct (nth_error (allMatches (firstPass rt content piiEntities)) i)
    as [[l p]|] eqn:Ei;
    [| apply nth_error_None in Ei; lia].
  destruct (nth_error (allMatches (firstPass rt content piiEntities)) j)
    as [[l' p']|] eqn:Ej; [| discriminate].
  simpl in E. inversion E; subst p'.
  destruct (Hi _ _ _ Ei) as [k [_ Hp]].
  destruct (Hi _ _ _ Ej) as [k' [_ Hp']].
  rewrite Hp in Hp'. now apply Sprintf_placeholder_inj in Hp'.
Qed.

End FirstPass.

(* ================================================================== *)
(** ** The second pass: the order of substitution *)

Lemma insertByLen_perm (x : gostring) (l : list gostring) :
  Permutation (x :: l) (insertByLen x l).
Proof.
  induction l as [|y l IH]; simpl.
  - apply Permutation_refl.
  - destruct (length x <? length y).
    + apply perm_trans with (y :: x :: l); [apply perm_swap |].
      now apply perm_skip.
    + apply Permutation_refl.
Qed.

Lemma sortByLenDesc_perm (l : list gostring) :
  Permutation l (sortByLenDesc l).
Proof.
  induction l as [|x l IH]; simpl.
  - apply Permutation_refl.
  - apply perm_trans with (x :: sortByLenDesc l).
    + now apply perm_skip.
    + apply insertByLen_perm.
Qed.

Lemma insertByLen_sorted (x : gostring) (l : list gostring) :
  Sorted longerFirst l -> Sorted longerFirst (insertByLen x l).
Proof.
  induction l as [|y l IH]; simpl; intros H.
  - repeat constructor.
  - destruct (length x <? length y) eqn:E.
    + apply Nat.ltb_lt in E. inversion H as [|? ? Hs Hr]; subst.
      constructor; [now apply IH |].
      destruct l as [|z l]; simpl.
      * constructor. unfold longerFirst. lia.
      * destruct (length x <? length z) eqn:E2.
        -- inversion Hr; subst. now constructor.
        -- constructor. unfold longerFirst. lia.
    + apply Nat.ltb_ge in E. constructor; [exact H |].
      constructor. exact E.
Qed.

Lemma sortByLenDesc_sorted (l : list gostring) :
  StronglySorted longerFirst (sortByLenDesc l).
Proof.
  apply Sorted_StronglySorted.
  - intros a b c H1 H2. unfold longerFirst in *. lia.
  - induction l as [|x l IH]; simpl.
    + constructor.
    + now apply insertByLen_sorted.
Qed.

Lemma originalsOf_perm (rt : Runtime) (m : gomap gostring) :
  fair rt -> Permutation (map fst m) (originalsOf rt m).
Proof.
  intros F. unfold originalsOf.
  apply perm_trans with (map fst (range rt m)).
  - apply Permutation_map, F.
  - apply sortByLenDesc_perm.
Qed.

Lemma lookup_store_same (V : Type) (k : gostring) (v : V) (m : gomap V) :
  lookup k (store k v m) = Some v.
Proof.
  induction m as [|[k' v'] m IH]; simpl.
  - now rewrite eqs_refl.
  - destruct (eqs k k') eqn:E; simpl.
    + now rewrite eqs_refl.
    + now rewrite E.
Qed.

(** What a masking call that leaves a correlation entry in fresh
    metadata has done. *)
Lemma mask_produced (rt : Runtime) (content : gostring)
  (piiEntities : gomap Regexp) (metadata metadata' : Metadata)
  (masked : gostring) (err : option error) (entry : gomap gostring) :
  lookup MetadataKeyPIIEntities metadata = None ->
  maskPIIFromContent rt content piiEntities metadata
    = (masked, err, metadata') ->
  lookup MetadataKeyPIIEntities metadata' = Some (MapStringString entry) ->
  entry = correlationEntry rt content piiEntities /\
  entry <> [] /\
  err = None /\
  masked = secondPass entry (originalsOf rt entry) content.
Proof.
  intros Hfresh Hm Hl. unfold maskPIIFromContent in Hm.
  destruct content as [|c content'].
  - inversion Hm; subst. congruence.
  - pose proof (correlationEntry_allMatches rt (c :: content') piiEntities)
      as Hs.
    unfold correlationEntry in *.
    set (st := firstPass rt (c :: content') piiEntities) in *.
    rewrite <- Hs in Hm.
    destruct (0 <? length (maskedPIIEntities st)) eqn:E.
    + inversion Hm; subst. rewrite lookup_store_same in Hl.
      inversion Hl; subst. repeat split; try reflexivity.
      intros H0. rewrite H0 in E. discriminate.
    + inversion Hm; subst. congruence.
Qed.

(* ================================================================== *)
(** ** The correlation entry *)

Lemma fair_inOrder : fair inOrder.
Proof. intros V m. apply Permutation_refl. Qed.

Lemma fair_reversed : fair reversed.
Proof. intros V m. apply Permutation_rev. Qed.

Lemma correlationEntry_keys_perm (rt : Runtime) (content : gostring)
  (piiEntities : gomap Regexp) :
  fair rt ->
  Permutation (map fst (correlationEntry rt content piiEntities))
    (matchedLiterals content piiEntities).
Proof.
  intros F. rewrite correlationEntry_allMatches.
  apply NoDup_Permutation.
  - apply (firstPass_inv rt content piiEntities F).
  - apply NoDup_nodup.
  - intros l. rewrite (firstPass_keys rt content piiEntities F).
    now rewrite matchedLiterals_spec.
Qed.

(** X20.  The correlation entry that a masking call leaves in the
    metadata is a bijection between the distinct matched literals and
    their placeholders: no literal has two entries, no placeholder is
    used twice, the literals are exactly the distinct matches that are
    not shaped like a placeholder, there are as many placeholders as
    such literals, and the entry number [i] carries the counter value
    [i] (from 0, by steps of 1). *)
Theorem correlation_entry_bijection (rt : Runtime) (content : gostring)
  (piiEntities : gomap Regexp) (metadata metadata' : Metadata)
  (masked : gostring) (err : option error) (entry : gomap gostring) :
  fair rt ->
  lookup MetadataKeyPIIEntities metadata = None ->
  maskPIIFromContent rt content piiEntities metadata
    = (masked, err, metadata') ->
  lookup MetadataKeyPIIEntities metadata' = Some (MapStringString entry) ->
  NoDup (map fst entry) /\
  NoDup (map snd entry) /\
  Permutation (map fst entry) (matchedLiterals content piiEntities) /\
  length (map snd entry) = length (matchedLiterals content piiEntities) /\
  (forall i l p, nth_error entry i = Some (l, p) ->
     exists key, In key (map fst piiEntities) /\
                 p = Sprintf_placeholder key i) /\
  (forall l p, In (l, p) entry -> lookup l entry = Some p).
Proof.
  intros F Hfresh Hm Hl.
  destruct (mask_produced _ _ _ _ _ _ _ _ Hfresh Hm Hl)
    as [He [Hne [_ Hmasked]]].
  assert (ND : NoDup (map fst entry)).
  { rewrite He, correlationEntry_allMatches.
    apply (firstPass_inv rt content piiEntities F). }
  assert (P : Permutation (map fst entry)
                (matchedLiterals content piiEntities)).
  { rewrite He. now apply correlationEntry_keys_perm. }
  refine (conj _ (conj _ (conj _ (conj _ (conj _ _))))).
  - exact ND.
  - rewrite He. now apply correlationEntry_values_nodup.
  - exact P.
  - rewrite <- (Permutation_length P). now rewrite !length_map.
  - rewrite He, correlationEntry_allMatches.
    apply (firstPass_inv rt content piiEntities F).
  - intros l p H. now apply lookup_In.
Qed.

Lemma correlation_entry_bijection_witness :
  fair inOrder /\
  NoDup (map snd [(str "jane@example.com", str "[EMAIL_0000]");
                  (str "555-234-4567", str "[PHONE_0001]")]).
Proof.
  split; [exact fair_inOrder |].
  refine (proj1 (proj2 (correlation_entry_bijection inOrder
    (str "Contact jane@example.com or 555-234-4567") scenarioEntities []
    [(MetadataKeyPIIEntities,
      MapStringString [(str "jane@example.com", str "[EMAIL_0000]");
                       (str "555-234-4567", str "[PHONE_0001]")])]
    (str "Contact [EMAIL_0000] or [PHONE_0001]") None
    [(str "jane@example.com", str "[EMAIL_0000]");
     (str "555-234-4567", str "[PHONE_0001]")]
    fair_inOrder _ _ _))).
  - reflexivity.
  - vm_compute. reflexivity.
  - vm_compute. reflexivity.
Defined.

(* ================================================================== *)
(** ** The placeholder shape *)

Lemma shapeTail_spec (p : option ascii) (v : gostring) :
  run shapeTail p v (fun _ s' => Some s') <> None <->
  exists h, v = str "_" ++ h ++ str "]" /\ length h = 4 /\
            forallb isHexDigit h = true.
Proof.
  unfold shapeTail, isHexDigit. cbn [seq fold_right run timesLoop].
  rewrite run_Lit.
  set (hx := class_mem false [("0", "9"); ("a", "f")]%char).
  split.
  - destruct v as [|a v]; [congruence |].
    destruct (Ascii.eqb a "_") eqn:Ea; [| congruence].
    apply Ascii.eqb_eq in Ea. subst a.
    destruct v as [|h1 v]; [congruence |].
    destruct (hx h1) eqn:E1; [| congruence].
    destruct v as [|h2 v]; [congruence |].
    destruct (hx h2) eqn:E2; [| congruence].
    destruct v as [|h3 v]; [congruence |].
    destruct (hx h3) eqn:E3; [| congruence].
    destruct v as [|h4 v]; [congruence |].
    destruct (hx h4) eqn:E4; [| congruence].
    rewrite run_Lit. destruct v as [|b v]; [congruence |].
    destruct (Ascii.eqb b "]") eqn:Eb; [| congruence].
    apply Ascii.eqb_eq in Eb. subst b.
    destruct v as [|x v]; [| congruence].
    intros _. exists [h1; h2; h3; h4]. split; [reflexivity |].
    split; [reflexivity |]. cbn [forallb]. now rewrite E1, E2, E3, E4.
  - intros [h [-> [Hl Hh]]].
    destruct h as [|h1 [|h2 [|h3 [|h4 [|x h]]]]]; try discriminate.
    cbn [forallb] in Hh. rewrite !andb_true_iff in Hh.
    destruct Hh as [E1 [E2 [E3 [E4 _]]]].
    cbn [str list_ascii_of_string app].
    rewrite Ascii.eqb_refl, E1, E2, E3, E4, run_Lit, Ascii.eqb_refl.
    discriminate.
Qed.

Lemma starLoop_class (f : bool) (rs : list (ascii * ascii)) (k : kont)
  (n : nat) (p : option ascii) (s : gostring) :
  (forall p1 p2 v, k p1 v = k p2 v) ->
  length s <= n ->
  starLoop (run (Class f rs)) k n p s <> None <->
  exists u v, s = u ++ v /\ forallb (class_mem f rs) u = true /\
              k None v <> None.
Proof.
  intros Hk. revert p s. induction n as [|n IH]; intros p s Hn.
  - destruct s; [| simpl in Hn; lia]. cbn [starLoop]. split.
    + intros H. exists [], []. rewrite (Hk None p). auto.
    + intros [u [v [E [_ H]]]]. symmetry in E.
      apply app_eq_nil in E. destruct E as [_ ->].
      now rewrite (Hk p None).
  - cbn [starLoop]. rewrite run_Class.
    destruct s as [|c s'].
    + split.
      * intros H. exists [], []. rewrite (Hk None p). auto.
      * intros [u [v [E [_ H]]]]. symmetry in E.
        apply app_eq_nil in E. destruct E as [_ ->].
        now rewrite (Hk p None).
    + destruct (class_mem f rs c) eqn:Ec.
      * replace (length s' <? length (c :: s')) with true
          by (symmetry; apply Nat.ltb_lt; simpl; lia).
        assert (Hn' : length s' <= n) by (simpl in Hn; lia).
        specialize (IH (Some c) s' Hn').
        destruct (starLoop (run (Class f rs)) k n (Some c) s') eqn:El.
        -- split; [intros _ | discriminate].
           destruct (proj1 IH ltac:(discriminate)) as [u [v [-> [Hu Hv]]]].
           exists (c :: u), v. cbn [forallb]. rewrite Ec, Hu. auto.
        -- split.
           ++ intros H. exists [], (c :: s'). rewrite (Hk None p). auto.
           ++ intros [u [v [E [Hu Hv]]]].
              destruct u as [|c' u].
              ** simpl in E. subst v. now rewrite (Hk p None).
              ** exfalso. injection E as <- ->.
                 cbn [forallb] in Hu. apply andb_true_iff in Hu.
                 apply (proj2 IH); [| reflexivity].
                 exists u, v. tauto.
      * split.
        -- intros H. exists [], (c :: s'). rewrite (Hk None p). auto.
        -- intros [u [v [E [Hu Hv]]]].
           destruct u as [|c' u].
           ++ simpl in E. subst v. now rewrite (Hk p None).
           ++ injection E as <- ->. cbn [forallb] in Hu.
              rewrite Ec in Hu. discriminate.
Qed.

Lemma matches_from_Bot_inside (r : regex) (c : ascii) (s : gostring) :
  matches_from (Cat Bot r) (Some c) s = false.
Proof.
  revert c. induction s as [|d s IH]; intros c; cbn [matches_from].
  - reflexivity.
  - unfold match_here. cbn [run]. apply IH.
Qed.

Lemma placeholderPattern_unfold :
  placeholderPattern
  = Cat Bot (Cat (Lit "[")
      (Cat (Plus (Class false [("A", "Z"); ("_", "_")]%char)) shapeTail)).
Proof. reflexivity. Qed.

Lemma shapeTail_prev (p1 p2 : option ascii) (v : gostring) :
  run shapeTail p1 v (fun _ s' => Some s')
  = run shapeTail p2 v (fun _ s' => Some s').
Proof.
  unfold shapeTail. cbn [seq fold_right run]. now rewrite !run_Lit.
Qed.

(** The guard of the first pass accepts exactly the texts of the
    placeholder shape. *)
Lemma placeholderShaped_spec (l : gostring) :
  placeholderShaped l = true <-> PlaceholderShape l.
Proof.
  unfold placeholderShaped. cbn [MatchString MustCompile].
  rewrite placeholderPattern_unfold.
  assert (M : matches_from
                (Cat Bot (Cat (Lit "[")
                   (Cat (Plus (Class false [("A", "Z"); ("_", "_")]%char))
                        shapeTail))) None l = true <->
              match l with
              | a :: c :: s =>
                  Ascii.eqb a "[" = true /\ isEntityChar c = true /\
                  starLoop (run (Class false [("A", "Z"); ("_", "_")]%char))
                    (fun p' s' => run shapeTail p' s' (fun _ s'' => Some s''))
                    (length s) (Some c) s <> None
              | _ => False
              end).
  { destruct l as [|a l].
    - cbn. split; [discriminate | tauto].
    - cbn [matches_from]. rewrite matches_from_Bot_inside.
      unfold match_here, Plus. cbn [run]. rewrite run_Lit.
      destruct (Ascii.eqb a "[").
      + destruct l as [|c s].
        * split; [discriminate | tauto].
        * fold (isEntityChar c). destruct (isEntityChar c).
          -- destruct (starLoop _ _ _ _ _).
             ++ split; [intros _; repeat split; discriminate | reflexivity].
             ++ split; [discriminate | intros [_ [_ H]]; congruence].
          -- split; [discriminate | intros [_ [H _]]; discriminate].
      + destruct l as [|c s]; (split; [discriminate |]); [tauto |].
        intros [H _]. discriminate. }
  rewrite M. clear M. unfold PlaceholderShape. split.
  - destruct l as [|a [|c s]]; try tauto.
    intros [Ea [Ec Hs]]. apply Ascii.eqb_eq in Ea. subst a.
    apply starLoop_class in Hs; [| intros; apply shapeTail_prev | lia].
    destruct Hs as [u [v [-> [Hu Hv]]]].
    apply shapeTail_spec in Hv. destruct Hv as [h [-> [Hl Hh]]].
    exists (c :: u), h. split; [reflexivity |].
    split; [discriminate |]. split; [| auto].
    cbn [forallb]. now rewrite Ec.
  - intros [name [h [-> [Hn [Hname [Hl Hh]]]]]].
    destruct name as [|c u]; [congruence |].
    cbn [str list_ascii_of_string app].
    cbn [forallb] in Hname. apply andb_true_iff in Hname.
    destruct Hname as [Ec Hu].
    split; [reflexivity |]. split; [exact Ec |].
    apply starLoop_class; [intros; apply shapeTail_prev | lia |].
    exists u, (str "_" ++ h ++ str "]"). split; [reflexivity |].
    split; [exact Hu |].
    apply shapeTail_spec. exists h. auto.
Qed.

(** [maskPIIFromContent] in one equation. *)
Lemma mask_eq (rt : Runtime) (content : gostring)
  (piiEntities : gomap Regexp) (metadata : Metadata) :
  maskPIIFromContent rt content piiEntities metadata =
  match content, correlationEntry rt content piiEntities with
  | [], _ => ([], None, metadata)
  | _ :: _, [] => ([], None, metadata)
  | _ :: _, (_ :: _) as entry =>
      (secondPass entry (originalsOf rt entry) content, None,
       store MetadataKeyPIIEntities (MapStringString entry) metadata)
  end.
Proof.
  unfold maskPIIFromContent. destruct content as [|c content']; [reflexivity |].
  rewrite <- correlationEntry_allMatches.
  unfold correlationEntry.
  destruct (maskedPIIEntities (firstPass rt (c :: content') piiEntities));
    reflexivity.
Qed.

Lemma mask_with_entry (rt : Runtime) (content : gostring)
  (piiEntities : gomap Regexp) (metadata : Metadata)
  (e : gostring * gostring) (es : gomap gostring) :
  content <> [] ->
  correlationEntry rt content piiEntities = e :: es ->
  maskPIIFromContent rt content piiEntities metadata =
  (secondPass (e :: es) (originalsOf rt (e :: es)) content, None,
   store MetadataKeyPIIEntities (MapStringString (e :: es)) metadata).
Proof.
  intros Hc He. rewrite mask_eq.
  destruct content; [congruence |]. now rewrite He.
Qed.

(* ================================================================== *)
(** ** Masking and the iteration order of the maps *)

(** C3, as stated, fails: the same content and the same detector set,
    visited in two different orders, give two different masked texts
    and two different correlation entries. *)
Lemma masking_depends_on_map_order :
  fair inOrder /\ fair reversed /\
  maskPIIFromContent inOrder
    (str "Contact jane@example.com or 555-234-4567") scenarioEntities []
  = (str "Contact [EMAIL_0000] or [PHONE_0001]", None,
     [(MetadataKeyPIIEntities,
       MapStringString [(str "jane@example.com", str "[EMAIL_0000]");
                        (str "555-234-4567", str "[PHONE_0001]")])]) /\
  maskPIIFromContent reversed
    (str "Contact jane@example.com or 555-234-4567") scenarioEntities []
  = (str "Contact [EMAIL_0001] or [PHONE_0000]", None,
     [(MetadataKeyPIIEntities,
       MapStringString [(str "555-234-4567", str "[PHONE_0000]");
                        (str "jane@example.com", str "[EMAIL_0001]")])]) /\
  maskPIIFromContent inOrder
    (str "Contact jane@example.com or 555-234-4567") scenarioEntities []
  <> maskPIIFromContent reversed
    (str "Contact jane@example.com or 555-234-4567") scenarioEntities [].
Proof.
  split; [exact fair_inOrder |].
  split; [exact fair_reversed |].
  split; [vm_compute; reflexivity |].
  split; [vm_compute; reflexivity |].
  vm_compute. discriminate.
Qed.

(** C3, amended.  Two runs on the same content and the same detector
    set, whatever orders the runtime picks, agree on which run leaves a
    correlation entry, on the set of literals in it and on their
    number, and both number their placeholders 0, 1, 2, ... in the
    order of allocation; the entity label and the number that a literal
    gets, and so the masked text, are fixed only once the orders are. *)
Theorem masked_literals_independent_of_order (rt1 rt2 : Runtime)
  (content : gostring) (piiEntities : gomap Regexp) (metadata : Metadata)
  (masked1 : gostring) (err1 : option error) (metadata1 : Metadata)
  (entry1 : gomap gostring) :
  fair rt1 -> fair rt2 ->
  lookup MetadataKeyPIIEntities metadata = None ->
  maskPIIFromContent rt1 content piiEntities metadata
    = (masked1, err1, metadata1) ->
  lookup MetadataKeyPIIEntities metadata1 = Some (MapStringString entry1) ->
  exists masked2 err2 metadata2 entry2,
    maskPIIFromContent rt2 content piiEntities metadata
      = (masked2, err2, metadata2) /\
    lookup MetadataKeyPIIEntities metadata2
      = Some (MapStringString entry2) /\
    Permutation (map fst entry1) (map fst entry2) /\
    length entry1 = length entry2 /\
    (forall i l p, nth_error entry1 i = Some (l, p) ->
       exists key, p = Sprintf_placeholder key i) /\
    (forall i l p, nth_error entry2 i = Some (l, p) ->
       exists key, p = Sprintf_placeholder key i).
Proof.
  intros F1 F2 Hfresh Hm Hl.
  destruct (mask_produced _ _ _ _ _ _ _ _ Hfresh Hm Hl)
    as [He [Hne [_ _]]].
  assert (P : Permutation (map fst entry1)
                (map fst (correlationEntry rt2 content piiEntities))).
  { rewrite He.
    apply perm_trans with (matchedLiterals content piiEntities).
    - now apply correlationEntry_keys_perm.
    - apply Permutation_sym. now apply correlationEntry_keys_perm. }
  assert (Hc : content <> []).
  { intros ->. rewrite mask_eq in Hm. inversion Hm; subst. congruence. }
  pose proof (mask_eq rt2 content piiEntities metadata) as E2.
  destruct content as [|c content']; [congruence |].
  destruct (correlationEntry rt2 (c :: content') piiEntities)
    as [|e2 entry2] eqn:E.
  - apply Permutation_length in P. destruct entry1; [congruence | discriminate].
  - eexists _, _, _, (e2 :: entry2). split; [exact E2 |].
    split; [apply lookup_store_same |].
    split; [exact P |].
    split.
    + apply Permutation_length in P. now rewrite !length_map in P.
    + split.
      * intros i l p H. rewrite He, correlationEntry_allMatches in H.
        destruct (inv_nth _ _ (firstPass_inv rt1 _ _ F1) _ _ _ H) as [k [_ Hk]].
        now exists k.
      * intros i l p H. rewrite <- E, correlationEntry_allMatches in H.
        destruct (inv_nth _ _ (firstPass_inv rt2 _ _ F2) _ _ _ H) as [k [_ Hk]].
        now exists k.
Qed.

Lemma masked_literals_independent_of_order_witness :
  fair inOrder /\ fair reversed /\
  exists masked2 err2 metadata2 entry2,
    maskPIIFromContent reversed
      (str "Contact jane@example.com or 555-234-4567") scenarioEntities []
      = (masked2, err2, metadata2) /\
    lookup MetadataKeyPIIEntities metadata2
      = Some (MapStringString entry2) /\
    Permutation [str "jane@example.com"; str "555-234-4567"]
      (map fst entry2).
Proof.
  split; [exact fair_inOrder |].
  split; [exact fair_reversed |].
  destruct (masked_literals_independent_of_order inOrder reversed
    (str "Contact jane@example.com or 555-234-4567") scenarioEntities []
    (str "Contact [EMAIL_0000] or [PHONE_0001]") None
    [(MetadataKeyPIIEntities,
      MapStringString [(str "jane@example.com", str "[EMAIL_0000]");
                       (str "555-234-4567", str "[PHONE_0001]")])]
    [(str "jane@example.com", str "[EMAIL_0000]");
     (str "555-234-4567", str "[PHONE_0001]")]
    fair_inOrder fair_reversed eq_refl)
    as [m2 [e2 [md2 [en2 [H1 [H2 [H3 _]]]]]]].
  - vm_compute. reflexivity.
  - vm_compute. reflexivity.
  - exists m2, e2, md2, en2. auto.
Defined.

(* ================================================================== *)
(** ** The reference scenarios *)

Lemma scenarioEntities_parsed :
  parseBuiltins [] true true false = Some scenarioEntities.
Proof. reflexivity. Qed.

Lemma range_single (rt : Runtime) (V : Type) (x : gostring * V) :
  fair rt -> range rt [x] = [x].
Proof.
  intros F. apply Permutation_length_1_inv. apply F.
Qed.

Lemma range_pair (rt : Runtime) (V : Type) (x y : gostring * V) :
  fair rt -> range rt [x; y] = [x; y] \/ range rt [x; y] = [y; x].
Proof.
  intros F. apply Permutation_length_2_inv. apply F.
Qed.

(** The built-in phone pattern finds nothing in the scenario text: the
    exchange code 123 does not begin with a digit from 2 to 9. *)
Lemma scenario_phone_unmatched :
  FindAllString (MustCompile DefaultPhoneRegex) scenarioContent = [] /\
  FindAllString (MustCompile DefaultEmailRegex) scenarioContent
    = [str "jane@example.com"].
Proof. split; vm_compute; reflexivity. Qed.

Lemma scenario_entry (rt : Runtime) :
  fair rt ->
  correlationEntry rt scenarioContent scenarioEntities
    = [(str "jane@example.com", str "[EMAIL_0000]")].
Proof.
  intros F. unfold correlationEntry, firstPass.
  destruct (range_pair rt _
              (DefaultEmailEntityName, MustCompile DefaultEmailRegex)
              (DefaultPhoneEntityName, MustCompile DefaultPhoneRegex) F)
    as [E | E]; unfold scenarioEntities; rewrite E; vm_compute; reflexivity.
Qed.

(** C2, as stated, fails: the masked text of the scenario holds one
    placeholder only, and the correlation entry has no placeholder for
    the phone literal. *)
Lemma scenario_masking_one_placeholder :
  fair inOrder /\
  maskPIIFromContent inOrder scenarioContent scenarioEntities []
  = (str "Contact [EMAIL_0000] or 555-123-4567", None,
     [(MetadataKeyPIIEntities,
       MapStringString [(str "jane@example.com", str "[EMAIL_0000]")])]) /\
  ~ (exists masked err metadata entry pe pp,
       maskPIIFromContent inOrder scenarioContent scenarioEntities []
         = (masked, err, metadata) /\
       lookup MetadataKeyPIIEntities metadata
         = Some (MapStringString entry) /\
       lookup (str "jane@example.com") entry = Some pe /\
       lookup (str "555-123-4567") entry = Some pp /\
       pe <> pp /\
       Contains masked pe = true /\ Contains masked pp = true).
Proof.
  assert (E : maskPIIFromContent inOrder scenarioContent scenarioEntities []
    = (str "Contact [EMAIL_0000] or 555-123-4567", None,
       [(MetadataKeyPIIEntities,
         MapStringString [(str "jane@example.com", str "[EMAIL_0000]")])]))
    by (vm_compute; reflexivity).
  split; [exact fair_inOrder |].
  split; [exact E |].
  intros [masked [err [metadata [entry [pe [pp [H1 [H2 [_ [H4 _]]]]]]]]]].
  rewrite E in H1. inversion H1; subst.
  vm_compute in H2. inversion H2; subst.
  vm_compute in H4. discriminate.
Qed.

(** C2, amended.  With the built-in detectors EMAIL and PHONE, masking
    the scenario text puts one placeholder, [[EMAIL_0000]], in place of
    the email literal and leaves 555-123-4567 as it is; restoring the
    masked text with the entry produced gives the original text back,
    whatever orders the runtime picks. *)
Theorem scenario_masking_roundtrip (rt rt' : Runtime) (metadata : Metadata) :
  fair rt -> fair rt' ->
  maskPIIFromContent rt scenarioContent scenarioEntities metadata
  = (str "Contact [EMAIL_0000] or 555-123-4567", None,
     store MetadataKeyPIIEntities
       (MapStringString [(str "jane@example.com", str "[EMAIL_0000]")])
       metadata) /\
  restorePIIInResponse rt' (str "Contact [EMAIL_0000] or 555-123-4567")
    [(str "jane@example.com", str "[EMAIL_0000]")]
  = scenarioContent.
Proof.
  intros F F'. split.
  - rewrite (mask_with_entry rt scenarioContent scenarioEntities metadata
               _ _ ltac:(discriminate) (scenario_entry rt F)).
    unfold originalsOf. rewrite (range_single rt _ _ F).
    reflexivity.
  - unfold restorePIIInResponse. cbn [length Nat.eqb].
    rewrite (range_single rt' _ _ F'). vm_compute. reflexivity.
Qed.

Lemma scenario_masking_roundtrip_witness :
  fair inOrder /\
  restorePIIInResponse inOrder (str "Contact [EMAIL_0000] or 555-123-4567")
    [(str "jane@example.com", str "[EMAIL_0000]")]
  = scenarioContent.
Proof.
  split; [exact fair_inOrder |].
  exact (proj2 (scenario_masking_roundtrip inOrder inOrder []
                  fair_inOrder fair_inOrder)).
Defined.

(** C8, as stated, fails: redaction of the scenario text replaces the
    email literal only. *)
Lemma scenario_redaction_keeps_phone :
  fair inOrder /\
  redactPIIFromContent inOrder scenarioContent scenarioEntities
    = str "Contact ***** or 555-123-4567" /\
  redactPIIFromContent inOrder scenarioContent scenarioEntities
    <> str "Contact ***** or *****".
Proof.
  split; [exact fair_inOrder |].
  split; [vm_compute; reflexivity | vm_compute; discriminate].
Qed.

(** C8, amended.  With EMAIL and PHONE enabled in redaction mode the
    scenario text becomes "Contact ***** or 555-123-4567": the email
    match is replaced by five asterisks and 555-123-4567, which the
    built-in phone pattern does not match, stays.  In redaction mode the
    response phase reports no modification, whatever the response body and
    the metadata hold. *)
Theorem scenario_redaction (rt rt' : Runtime)
  (p : PIIMaskingRegexPolicyParams) (ctx : ResponseContext) :
  fair rt ->
  RedactPII p = true ->
  redactPIIFromContent rt scenarioContent scenarioEntities
    = str "Contact ***** or 555-123-4567" /\
  OnResponse rt' p ctx = UpstreamResponseModifications None.
Proof.
  intros F Hr. split.
  - unfold redactPIIFromContent, scenarioContent.
    cbn [str list_ascii_of_string].
    destruct (range_pair rt _
                (DefaultEmailEntityName, MustCompile DefaultEmailRegex)
                (DefaultPhoneEntityName, MustCompile DefaultPhoneRegex) F)
      as [E | E]; unfold scenarioEntities; rewrite E; vm_compute; reflexivity.
  - unfold OnResponse. now rewrite Hr.
Qed.

Lemma scenario_redaction_witness :
  fair inOrder /\
  OnResponse reversed
    {| PIIEntities := scenarioEntities; JsonPath := str "$.messages";
       RedactPII := true |}
    {| ResponseBody := Some (str "Contact ***** or 555-123-4567");
       RespMetadata :=
         [(MetadataKeyPIIEntities,
           MapStringString [(str "Contact", str "*****")])] |}
  = UpstreamResponseModifications None.
Proof.
  split; [exact fair_inOrder |].
  exact (proj2 (scenario_redaction inOrder reversed
    {| PIIEntities := scenarioEntities; JsonPath := str "$.messages";
       RedactPII := true |}
    {| ResponseBody := Some (str "Contact ***** or 555-123-4567");
       RespMetadata :=
         [(MetadataKeyPIIEntities,
           MapStringString [(str "Contact", str "*****")])] |}
    fair_inOrder eq_refl)).
Defined.

(* ================================================================== *)
(** ** The response phase *)

Lemma HasPrefix_nil (s : gostring) : HasPrefix s [] = true.
Proof. destruct s; reflexivity. Qed.

Lemma replace_scan_absent (old new s : gostring) :
  Contains s old = false -> replace_scan old new 0 s = s.
Proof.
  induction s as [|c s IH]; simpl; intros H.
  - reflexivity.
  - apply orb_false_iff in H. destruct H as [H1 H2].
    destruct old as [|o old'].
    + discriminate.
    + simpl in H1. simpl. rewrite H1. f_equal. now apply IH.
Qed.

(** Replacing a text that does not occur changes nothing: the test
    [strings.Contains] in [restorePIIInResponse] guards nothing. *)
Lemma ReplaceAll_absent (s old new : gostring) :
  Contains s old = false -> ReplaceAll s old new = s.
Proof.
  intros H. unfold ReplaceAll. destruct (eqs old new); [reflexivity |].
  destruct old as [|o old'].
  - destruct s; discriminate.
  - now apply replace_scan_absent.
Qed.

Lemma restoreStep_ReplaceAll (t : gostring) (e : gostring * gostring) :
  restoreStep t e = ReplaceAll t (snd e) (fst e).
Proof.
  destruct e as [original placeholder]. simpl.
  destruct (Contains t placeholder) eqn:E; [reflexivity |].
  symmetry. now apply ReplaceAll_absent.
Qed.

Lemma restore_fold (rt : Runtime) (body : gostring) (m : gomap gostring) :
  fair rt ->
  restorePIIInResponse rt body m =
  fold_left (fun t e => ReplaceAll t (snd e) (fst e)) (range rt m) body.
Proof.
  intros F. unfold restorePIIInResponse.
  destruct m as [|e m].
  - simpl. pose proof (F _ (@nil (gostring * gostring))) as P.
    apply Permutation_nil in P. now rewrite P.
  - cbn [length Nat.eqb].
    generalize (range rt (e :: m)) as es. intros es. revert body.
    induction es as [|x es IH]; intros body; simpl.
    + reflexivity.
    + now rewrite restoreStep_ReplaceAll, IH.
Qed.

(** C10.  [OnResponse] restores on the whole response body: the
    configured JSONPath plays no part.  Every stored placeholder is
    replaced, wherever it occurs in the text at its turn, by its literal
    ([strings.ReplaceAll] over the whole text, entry after entry).  The
    outcome is a modification exactly when redaction is off, the
    metadata holds a string-to-string map under the fixed key, there is
    a body, and the restored text differs from the body; when the entry
    is absent or is not such a map the outcome is "unchanged". *)
Theorem response_restores_whole_body (rt : Runtime)
  (p : PIIMaskingRegexPolicyParams) (ctx : ResponseContext) :
  fair rt ->
  (forall p', RedactPII p' = RedactPII p ->
     OnResponse rt p' ctx = OnResponse rt p ctx) /\
  (forall restored,
     OnResponse rt p ctx = UpstreamResponseModifications (Some restored) <->
     RedactPII p = false /\
     exists maskedPIIMap payload,
       lookup MetadataKeyPIIEntities (RespMetadata ctx)
         = Some (MapStringString maskedPIIMap) /\
       ResponseBody ctx = Some payload /\
       restored =
         fold_left (fun t e => ReplaceAll t (snd e) (fst e))
           (range rt maskedPIIMap) payload /\
       restored <> payload) /\
  (lookup MetadataKeyPIIEntities (RespMetadata ctx) = None \/
   lookup MetadataKeyPIIEntities (RespMetadata ctx) = Some OtherValue ->
   OnResponse rt p ctx = UpstreamResponseModifications None).
Proof.
  intros F. refine (conj _ (conj _ _)).
  - intros p' H. unfold OnResponse. now rewrite H.
  - intros restored. unfold OnResponse.
    destruct (RedactPII p).
    { split; [discriminate | intros [H _]; discriminate]. }
    destruct (lookup MetadataKeyPIIEntities (RespMetadata ctx))
      as [[m|]|] eqn:El.
    + destruct (ResponseBody ctx) as [payload|] eqn:Eb.
      * rewrite (restore_fold rt payload m F).
        remember (fold_left (fun t e => ReplaceAll t (snd e) (fst e))
                    (range rt m) payload) as r eqn:Er.
        destruct (eqs r payload) eqn:E; cbn [negb].
        -- apply eqs_true in E. split; [discriminate |].
           intros [_ [m' [payload' [H1 [H2 [H3 H4]]]]]].
           inversion H1; inversion H2; subst. congruence.
        -- apply eqs_false in E. split.
           ++ intros H. inversion H; subst. split; [reflexivity |].
              exists m, payload. auto.
           ++ intros [_ [m' [payload' [H1 [H2 [H3 H4]]]]]].
              inversion H1; inversion H2; subst. reflexivity.
      * split; [discriminate |].
        intros [_ [m' [payload' [_ [H2 _]]]]]. discriminate.
    + split; [discriminate |].
      intros [_ [m' [payload' [H1 _]]]]. discriminate.
    + split; [discriminate |].
      intros [_ [m' [payload' [H1 _]]]]. discriminate.
  - unfold OnResponse. intros [H | H]; rewrite H; now destruct (RedactPII p).
Qed.

Lemma response_restores_whole_body_witness :
  fair inOrder /\
  OnResponse inOrder
    {| PIIEntities := scenarioEntities;
       JsonPath := str "$.choices[0].message.content";
       RedactPII := false |}
    {| ResponseBody :=
         Some (str "{'id':'[EMAIL_0000]','text':'to [EMAIL_0000]'}");
       RespMetadata :=
         [(MetadataKeyPIIEntities,
           MapStringString [(str "jane@example.com", str "[EMAIL_0000]")])]
    |}
  = UpstreamResponseModifications
      (Some (str "{'id':'jane@example.com','text':'to jane@example.com'}")).
Proof.
  split; [exact fair_inOrder |].
  apply (proj1 (proj2 (response_restores_whole_body inOrder _ _ fair_inOrder))).
  split; [reflexivity |].
  eexists _, _. split; [reflexivity |]. split; [reflexivity |].
  split; [vm_compute; reflexivity | vm_compute; discriminate].
Defined.

(* ================================================================== *)
(** ** The request phase: cleaning and write-back *)














(** No-break space (U+00A0), next line (U+0085) and em space (U+2003)
    are trimmed like the ASCII white space; a lone lead byte is not a
    rune of white space and stays. *)
Example TrimSpace_examples :
  TrimSpace (map ascii_of_nat [194; 160; 32] ++ str "x y" ++
             map ascii_of_nat [226; 128; 131; 194; 133; 10]) = str "x y" /\
  TrimSpace (str " " ++ map ascii_of_nat [194] ++ str " ")
    = map ascii_of_nat [194].
Proof. split; vm_compute; reflexivity. Qed.


Lemma mask_err_nil (rt : Runtime) (content : gostring)
  (piiEntities : gomap Regexp) (metadata : Metadata) :
  snd (fst (maskPIIFromContent rt content piiEntities metadata)) = None.
Proof.
  rewrite mask_eq. destruct content; [reflexivity |].
  destruct (correlationEntry rt (a :: content) piiEntities); reflexivity.
Qed.

Section WriteBack.

Variable JSONObject : Type.
Variable json_Unmarshal : gostring -> option JSONObject.
Variable SetValueAtJSONPath :
  JSONObject -> gostring -> gostring -> option JSONObject.
Variable json_Marshal : JSONObject -> option gostring.
Variable ExtractStringValueFromJsonpath :
  gostring -> gostring -> gostring + error.

Local Abbreviation update :=
  (updatePayloadWithMaskedContent json_Unmarshal SetValueAtJSONPath
     json_Marshal).




End WriteBack.





(* ================================================================== *)
(** ** Literals that occur inside placeholders *)

(** The second pass on the content "10 0", whatever the runtime does:
    the literal "10" is replaced first, then the literal "0" is replaced
    inside the placeholder just inserted. *)
Lemma nested_literal_masking (rt : Runtime) (metadata : Metadata) :
  fair rt ->
  maskPIIFromContent rt (str "10 0") numberEntities metadata
  = (str "[NUM_[NUM_0001][NUM_0001][NUM_0001][NUM_0001]] [NUM_0001]", None,
     store MetadataKeyPIIEntities
       (MapStringString
          [(str "10", str "[NUM_0000]"); (str "0", str "[NUM_0001]")])
       metadata).
Proof.
  intros F.
  assert (E : correlationEntry rt (str "10 0") numberEntities
              = [(str "10", str "[NUM_0000]"); (str "0", str "[NUM_0001]")]).
  { unfold correlationEntry, firstPass, numberEntities.
    rewrite (range_single rt _ _ F). vm_compute. reflexivity. }
  rewrite (mask_with_entry rt (str "10 0") numberEntities metadata _ _
             ltac:(discriminate) E).
  unfold originalsOf.
  destruct (range_pair rt _ (str "10", str "[NUM_0000]")
              (str "0", str "[NUM_0001]") F) as [R | R];
    rewrite R; reflexivity.
Qed.

(** C5.  The literals are substituted in descending order of length, as
    specified.  The substring safety specified with it fails on the
    code: with the detector [[0-9]+] and the content "10 0" the literals are
    "10" and "0", the second a strict substring of the first; the
    placeholder [[NUM_0000]] of "10" is inserted first and the pass for
    "0" then rewrites the four zeros inside it, so that the masked text
    no longer holds [[NUM_0000]]. *)
Theorem nested_literal_corrupts_placeholder (rt : Runtime)
  (allMatches : gomap gostring) (metadata : Metadata) :
  fair rt ->
  StronglySorted longerFirst (originalsOf rt allMatches) /\
  FindAllString (MustCompile (Plus digit)) (str "10 0")
    = [str "10"; str "0"] /\
  Contains (str "10") (str "0") = true /\
  maskPIIFromContent rt (str "10 0") numberEntities metadata
  = (str "[NUM_[NUM_0001][NUM_0001][NUM_0001][NUM_0001]] [NUM_0001]", None,
     store MetadataKeyPIIEntities
       (MapStringString
          [(str "10", str "[NUM_0000]"); (str "0", str "[NUM_0001]")])
       metadata) /\
  Contains (str "[NUM_[NUM_0001][NUM_0001][NUM_0001][NUM_0001]] [NUM_0001]")
    (str "[NUM_0000]") = false.
Proof.
  intros F. split; [apply sortByLenDesc_sorted |].
  split; [vm_compute; reflexivity |].
  split; [reflexivity |].
  split; [now apply nested_literal_masking | vm_compute; reflexivity].
Qed.

Lemma nested_literal_corrupts_placeholder_witness :
  fair reversed /\
  fst (fst (maskPIIFromContent reversed (str "10 0") numberEntities []))
  = str "[NUM_[NUM_0001][NUM_0001][NUM_0001][NUM_0001]] [NUM_0001]".
Proof.
  split; [exact fair_reversed |].
  destruct (nested_literal_corrupts_placeholder reversed [] []
              fair_reversed) as [_ [_ [_ [H _]]]].
  now rewrite H.
Defined.

(** The second pass on the content "10 10 0", whatever the runtime
    does. *)
Lemma repeated_literal_masking (rt : Runtime) (metadata : Metadata) :
  fair rt ->
  maskPIIFromContent rt (str "10 10 0") numberEntities metadata
  = (str "[NUM_[NUM_0001][NUM_0001][NUM_0001][NUM_0001]] " ++
     str "[NUM_[NUM_0001][NUM_0001][NUM_0001][NUM_0001]] [NUM_0001]", None,
     store MetadataKeyPIIEntities
       (MapStringString
          [(str "10", str "[NUM_0000]"); (str "0", str "[NUM_0001]")])
       metadata).
Proof.
  intros F.
  assert (E : correlationEntry rt (str "10 10 0") numberEntities
              = [(str "10", str "[NUM_0000]"); (str "0", str "[NUM_0001]")]).
  { unfold correlationEntry, firstPass, numberEntities.
    rewrite (range_single rt _ _ F). vm_compute. reflexivity. }
  rewrite (mask_with_entry rt (str "10 10 0") numberEntities metadata _ _
             ltac:(discriminate) E).
  unfold originalsOf.
  destruct (range_pair rt _ (str "10", str "[NUM_0000]")
              (str "0", str "[NUM_0001]") F) as [R | R];
    rewrite R; reflexivity.
Qed.

(** C6.  The correlation entry is a bijection on the code, but the
    replacement of every occurrence of a literal by its one placeholder
    fails: with the detector [[0-9]+] and the content "10 10 0" the
    literal "10" is matched twice and gets the one placeholder
    [[NUM_0000]], the literal "0" gets [[NUM_0001]]; the pass for "0"
    then rewrites the zeros inside both copies of [[NUM_0000]], so that
    in every run neither occurrence of "10" is replaced by its
    placeholder: the masked text does not hold [[NUM_0000]] at all. *)
Theorem repeated_literal_loses_placeholder (rt : Runtime)
  (metadata metadata' : Metadata) (masked : gostring)
  (err : option error) :
  fair rt ->
  maskPIIFromContent rt (str "10 10 0") numberEntities metadata
    = (masked, err, metadata') ->
  FindAllString (MustCompile (Plus digit)) (str "10 10 0")
    = [str "10"; str "10"; str "0"] /\
  lookup MetadataKeyPIIEntities metadata'
    = Some (MapStringString
              [(str "10", str "[NUM_0000]"); (str "0", str "[NUM_0001]")]) /\
  masked = str "[NUM_[NUM_0001][NUM_0001][NUM_0001][NUM_0001]] " ++
           str "[NUM_[NUM_0001][NUM_0001][NUM_0001][NUM_0001]] [NUM_0001]" /\
  Contains masked (str "[NUM_0000]") = false.
Proof.
  intros F Hm. rewrite (repeated_literal_masking rt metadata F) in Hm.
  injection Hm as <- _ <-.
  split; [vm_compute; reflexivity |].
  split; [apply lookup_store_same |].
  split; [reflexivity | vm_compute; reflexivity].
Qed.

Lemma repeated_literal_loses_placeholder_witness :
  fair reversed /\
  Contains
    (fst (fst (maskPIIFromContent reversed (str "10 10 0") numberEntities
                 [])))
    (str "[NUM_0000]") = false.
Proof.
  split; [exact fair_reversed |].
  destruct (maskPIIFromContent reversed (str "10 10 0") numberEntities [])
    as [[masked err] md] eqn:H.
  cbn [fst].
  apply (repeated_literal_loses_placeholder reversed [] md masked err
           fair_reversed H).
Defined.

(** C1.  The round trip fails on the code.  The content "10 0" holds no
    substring of the placeholder shape; masking it with the detector
    [[0-9]+] gives the same masked text and the same correlation entry
    in every run; a response phase that visits the entry of "10" before
    the entry of "0" finds no [[NUM_0000]] to restore and returns
    "[NUM_0000] 0", not the content.  (A response phase that visits the
    entries the other way round does return the content.) *)
Theorem roundtrip_fails_on_nested_literal (rt : Runtime)
  (metadata : Metadata) :
  fair rt ->
  containsPlaceholderShape (str "10 0") = false /\
  maskPIIFromContent rt (str "10 0") numberEntities metadata
  = (str "[NUM_[NUM_0001][NUM_0001][NUM_0001][NUM_0001]] [NUM_0001]", None,
     store MetadataKeyPIIEntities
       (MapStringString
          [(str "10", str "[NUM_0000]"); (str "0", str "[NUM_0001]")])
       metadata) /\
  fair inOrder /\
  restorePIIInResponse inOrder
    (str "[NUM_[NUM_0001][NUM_0001][NUM_0001][NUM_0001]] [NUM_0001]")
    [(str "10", str "[NUM_0000]"); (str "0", str "[NUM_0001]")]
  = str "[NUM_0000] 0" /\
  restorePIIInResponse inOrder
    (str "[NUM_[NUM_0001][NUM_0001][NUM_0001][NUM_0001]] [NUM_0001]")
    [(str "10", str "[NUM_0000]"); (str "0", str "[NUM_0001]")]
  <> str "10 0" /\
  restorePIIInResponse reversed
    (str "[NUM_[NUM_0001][NUM_0001][NUM_0001][NUM_0001]] [NUM_0001]")
    [(str "10", str "[NUM_0000]"); (str "0", str "[NUM_0001]")]
  = str "10 0".
Proof.
  intros F. split; [vm_compute; reflexivity |].
  split; [now apply nested_literal_masking |].
  split; [exact fair_inOrder |].
  split; [vm_compute; reflexivity |].
  split; [vm_compute; discriminate | vm_compute; reflexivity].
Qed.

Lemma roundtrip_fails_on_nested_literal_witness :
  fair inOrder /\
  restorePIIInResponse inOrder
    (fst (fst (maskPIIFromContent inOrder (str "10 0") numberEntities [])))
    [(str "10", str "[NUM_0000]"); (str "0", str "[NUM_0001]")]
  <> str "10 0".
Proof.
  split; [exact fair_inOrder |].
  destruct (roundtrip_fails_on_nested_literal inOrder [] fair_inOrder)
    as [_ [H [_ [_ [H' _]]]]].
  rewrite H. exact H'.
Defined.

(* ================================================================== *)
(** ** Restoring in the reverse order of substitution *)

Lemma HasPrefix_app (s old : gostring) :
  HasPrefix s old = true <-> exists r, s = old ++ r.
Proof.
  revert s. induction old as [|o old IH]; intros s.
  - rewrite HasPrefix_nil. split; [intros _; now exists s | reflexivity].
  - destruct s as [|c s]; simpl.
    + split; [discriminate | intros [r H]; discriminate].
    + rewrite andb_true_iff, IH, Ascii.eqb_eq. split.
      * intros [-> [r ->]]. now exists r.
      * intros [r H]. injection H as -> ->. split; [reflexivity | now exists r].
Qed.

Lemma Contains_spec (s q : gostring) :
  Contains s q = true <-> exists a b, s = a ++ q ++ b.
Proof.
  induction s as [|c s IH]; cbn [Contains].
  - rewrite orb_false_r, HasPrefix_app. split.
    + intros [r H]. exists [], r. exact H.
    + intros [a [b H]]. destruct a; [now exists b |]. discriminate.
  - rewrite orb_true_iff, HasPrefix_app, IH. split.
    + intros [[r H] | [a [b H]]].
      * exists [], r. exact H.
      * exists (c :: a), b. now rewrite H.
    + intros [[|x a] [b H]].
      * left. now exists b.
      * right. injection H as -> ->. now exists a, b.
Qed.

Lemma replace_scan_skip (old new : gostring) (k : nat) (s : gostring) :
  replace_scan old new k s = replace_scan old new 0 (skipn k s).
Proof.
  revert k. induction s as [|c s IH]; intros [|k]; try reflexivity.
  cbn [replace_scan skipn]. apply IH.
Qed.

Lemma replace_scan_hit (old new r : gostring) :
  old <> [] ->
  replace_scan old new 0 (old ++ r) = new ++ replace_scan old new 0 r.
Proof.
  intros H. destruct old as [|o old]; [congruence |].
  cbn [app replace_scan].
  replace (HasPrefix (o :: old ++ r) (o :: old)) with true
    by (symmetry; apply HasPrefix_app; now exists r).
  f_equal. rewrite replace_scan_skip. f_equal.
  replace (length (o :: old) - 1) with (length old) by (cbn [length]; lia).
  rewrite skipn_app, skipn_all, Nat.sub_diag. reflexivity.
Qed.

Lemma replace_scan_miss (old new : gostring) (c : ascii) (s : gostring) :
  HasPrefix (c :: s) old = false ->
  replace_scan old new 0 (c :: s) = c :: replace_scan old new 0 s.
Proof. intros H. cbn [replace_scan]. now rewrite H. Qed.

Lemma Atom_inv (p : gostring) :
  Atom p ->
  exists p', p = "["%char :: p' /\ ~ In "["%char p' /\ p' <> [].
Proof.
  intros [body [-> Hb]]. exists (body ++ ["]"%char]).
  split; [reflexivity |]. split.
  - intros H. apply in_app_or in H. destruct H as [H | [H | []]].
    + rewrite forallb_forall in Hb. apply Hb in H. discriminate.
    + discriminate.
  - destruct body; discriminate.
Qed.

(** A text without an opening bracket that begins the rewritten text
    begins the original text: the rewritten text differs from the
    original only by placeholders, which open with a bracket. *)
Lemma replace_scan_prefix (old new' t w : gostring) :
  old <> [] ->
  ~ In "["%char w ->
  HasPrefix (replace_scan old ("["%char :: new') 0 t) w = true ->
  HasPrefix t w = true.
Proof.
  intros Ho. revert w. induction t as [|c t IH]; intros w Hw H.
  - exact H.
  - destruct w as [|x w]; [reflexivity |].
    destruct (HasPrefix (c :: t) old) eqn:E.
    + apply HasPrefix_app in E. destruct E as [r E]. rewrite E in H.
      rewrite replace_scan_hit in H by exact Ho.
      cbn [app HasPrefix] in H. apply andb_true_iff in H.
      destruct H as [H _]. apply Ascii.eqb_eq in H. subst x.
      exfalso. apply Hw. now left.
    + rewrite replace_scan_miss in H by exact E.
      cbn [HasPrefix] in H |- *. apply andb_true_iff in H.
      destruct H as [H1 H2]. rewrite H1. cbn [andb].
      apply IH; [| exact H2]. intros Hin. apply Hw. now right.
Qed.

Lemma Contains_app_r (a s q : gostring) :
  Contains s q = true -> Contains (a ++ s) q = true.
Proof.
  rewrite !Contains_spec. intros [u [v ->]].
  exists (a ++ u), v. now rewrite <- app_assoc.
Qed.

Lemma Contains_prefix (s q : gostring) :
  HasPrefix s q = true -> Contains s q = true.
Proof.
  intros H. destruct s; cbn [Contains]; now rewrite H.
Qed.

Lemma Contains_cons (c : ascii) (s q : gostring) :
  Contains s q = true -> Contains (c :: s) q = true.
Proof. apply (Contains_app_r [c]). Qed.

(** Putting the literal back where its placeholder stands undoes the
    substitution, when the text did not hold the placeholder before. *)
Lemma replace_scan_undo (old new : gostring) (n : nat) (t : gostring) :
  old <> [] ->
  Atom new ->
  length t <= n ->
  Contains t new = false ->
  replace_scan new old 0 (replace_scan old new 0 t) = t.
Proof.
  intros Ho Ha. destruct (Atom_inv _ Ha) as [new' [-> [Hn Hne]]].
  revert t. induction n as [|n IH]; intros t Hl Hc.
  - destruct t; [reflexivity | simpl in Hl; lia].
  - destruct t as [|c t]; [reflexivity |].
    destruct (HasPrefix (c :: t) old) eqn:E.
    + apply HasPrefix_app in E. destruct E as [r E]. rewrite E.
      rewrite replace_scan_hit by exact Ho.
      rewrite replace_scan_hit by discriminate.
      f_equal. apply IH.
      * apply (f_equal (@length ascii)) in E. rewrite length_app in E.
        destruct old; [congruence |]. simpl in E, Hl. lia.
      * destruct (Contains r ("["%char :: new')) eqn:Er; [| reflexivity].
        rewrite E in Hc. rewrite (Contains_app_r old _ _ Er) in Hc.
        discriminate.
    + rewrite replace_scan_miss by exact E.
      assert (Ht : Contains t ("["%char :: new') = false).
      { destruct (Contains t ("["%char :: new')) eqn:Et; [| reflexivity].
        rewrite (Contains_cons c _ _ Et) in Hc. discriminate. }
      rewrite replace_scan_miss.
      * f_equal. apply IH; [simpl in Hl; lia | exact Ht].
      * destruct (HasPrefix (c :: replace_scan old ("["%char :: new') 0 t)
                    ("["%char :: new')) eqn:Ep; [| reflexivity].
        exfalso. cbn [HasPrefix] in Ep. apply andb_true_iff in Ep.
        destruct Ep as [Ec Ep]. apply Ascii.eqb_eq in Ec. subst c.
        apply replace_scan_prefix in Ep; [| exact Ho | exact Hn].
        assert (Hp : HasPrefix ("["%char :: t) ("["%char :: new') = true).
        { cbn [HasPrefix]. now rewrite Ascii.eqb_refl, Ep. }
        apply Contains_prefix in Hp. congruence.
Qed.

Lemma replace_empty_undo (new t : gostring) :
  Atom new ->
  replace_scan new [] 0 (replace_empty new t) = t.
Proof.
  intros Ha. destruct (Atom_inv _ Ha) as [new' [-> [Hn Hne]]].
  induction t as [|c t IH]; cbn [replace_empty].
  - pose proof (replace_scan_hit ("["%char :: new') [] []
                  ltac:(discriminate)) as H.
    rewrite app_nil_r in H. exact H.
  - rewrite replace_scan_hit by discriminate. cbn [app].
    rewrite replace_scan_miss; [now rewrite IH |].
    destruct (HasPrefix (c :: replace_empty ("["%char :: new') t)
                ("["%char :: new')) eqn:Ep; [| reflexivity].
    exfalso. cbn [HasPrefix] in Ep. apply andb_true_iff in Ep.
    destruct Ep as [_ Ep].
    destruct new' as [|x new'']; [congruence |].
    assert (Hh : exists rest, replace_empty ("["%char :: x :: new'') t
                              = "["%char :: rest).
    { destruct t; cbn [replace_empty app]; eauto. }
    destruct Hh as [rest Hh]. rewrite Hh in Ep.
    cbn [HasPrefix] in Ep. apply andb_true_iff in Ep.
    destruct Ep as [Ex _]. apply Ascii.eqb_eq in Ex. subst x.
    apply Hn. now left.
Qed.

Lemma Atom_prefix_eq (bp bq x : gostring) :
  forallb (fun c => negb (isBracket c)) bp = true ->
  forallb (fun c => negb (isBracket c)) bq = true ->
  HasPrefix ((bp ++ ["]"%char]) ++ x) (bq ++ ["]"%char]) = true ->
  bp = bq.
Proof.
  revert bp. induction bq as [|b bq IH]; intros bp Hp Hq H.
  - destruct bp as [|a bp]; [reflexivity |].
    cbn [app HasPrefix] in H. apply andb_true_iff in H.
    destruct H as [H _]. apply Ascii.eqb_eq in H. subst a.
    cbn [forallb] in Hp. discriminate.
  - cbn [forallb] in Hq. apply andb_true_iff in Hq. destruct Hq as [Hb Hq].
    destruct bp as [|a bp].
    + cbn [app HasPrefix] in H. apply andb_true_iff in H.
      destruct H as [H _]. apply Ascii.eqb_eq in H. subst b. discriminate.
    + cbn [forallb] in Hp. apply andb_true_iff in Hp.
      destruct Hp as [_ Hp].
      cbn [app HasPrefix] in H. apply andb_true_iff in H.
      destruct H as [H1 H2]. apply Ascii.eqb_eq in H1. subst a.
      f_equal. now apply IH.
Qed.

Lemma Atom_prefix (p q x : gostring) :
  Atom p -> Atom q -> HasPrefix (p ++ x) q = true -> p = q.
Proof.
  intros [bp [-> Hp]] [bq [-> Hq]] H.
  cbn [app HasPrefix] in H. apply andb_true_iff in H. destruct H as [_ H].
  f_equal. f_equal. eapply Atom_prefix_eq; eauto.
Qed.

Lemma Contains_skip_no_open (s x q' : gostring) :
  ~ In "["%char s ->
  Contains (s ++ x) ("["%char :: q') = true ->
  Contains x ("["%char :: q') = true.
Proof.
  induction s as [|a s IH]; intros Hs H.
  - exact H.
  - cbn [app Contains] in H. apply orb_true_iff in H.
    destruct H as [H | H].
    + cbn [HasPrefix] in H. apply andb_true_iff in H. destruct H as [H _].
      apply Ascii.eqb_eq in H. subst a. exfalso. apply Hs. now left.
    + apply IH; [| exact H]. intros Hin. apply Hs. now right.
Qed.

(** A placeholder in front of a text hides no other placeholder. *)
Lemma Atom_disjoint (p q x : gostring) :
  Atom p -> Atom q -> p <> q ->
  Contains (p ++ x) q = true -> Contains x q = true.
Proof.
  intros Hp Hq Hne H.
  destruct (Atom_inv _ Hp) as [p' [Ep [Hn _]]].
  destruct (Atom_inv _ Hq) as [q' [Eq _]].
  rewrite Ep in H. cbn [app Contains] in H. apply orb_true_iff in H.
  destruct H as [H | H].
  - exfalso. apply Hne. apply (Atom_prefix p q x Hp Hq).
    rewrite Ep. exact H.
  - rewrite Eq in H |- *. now apply (Contains_skip_no_open p').
Qed.

(** A substitution brings no placeholder but its own into the text. *)
Lemma replace_scan_no_new (old p q : gostring) (n : nat) (t : gostring) :
  old <> [] -> Atom p -> Atom q -> p <> q ->
  length t <= n ->
  Contains (replace_scan old p 0 t) q = true -> Contains t q = true.
Proof.
  intros Ho Hp Hq Hne.
  destruct (Atom_inv _ Hp) as [p' [Ep _]].
  destruct (Atom_inv _ Hq) as [q' [Eq [Hnq _]]].
  revert t. induction n as [|n IH]; intros t Hl H.
  - destruct t; [exact H | simpl in Hl; lia].
  - destruct t as [|c t]; [exact H |].
    destruct (HasPrefix (c :: t) old) eqn:E.
    + apply HasPrefix_app in E. destruct E as [r E]. rewrite E in H |- *.
      rewrite replace_scan_hit in H by exact Ho.
      apply Atom_disjoint in H; try assumption.
      apply Contains_app_r. apply IH; [| exact H].
      apply (f_equal (@length ascii)) in E. rewrite length_app in E.
      destruct old; [congruence |]. simpl in E, Hl. lia.
    + rewrite replace_scan_miss in H by exact E.
      cbn [Contains] in H. apply orb_true_iff in H.
      destruct H as [H | H].
      * apply Contains_prefix. rewrite Eq in H |- *.
        cbn [HasPrefix] in H |- *. apply andb_true_iff in H.
        destruct H as [H1 H2]. rewrite H1. cbn [andb].
        rewrite Ep in H2.
        now apply (replace_scan_prefix old p' t q' Ho Hnq).
      * apply Contains_cons. apply IH; [simpl in Hl; lia | exact H].
Qed.

Lemma replace_empty_no_new (p q t : gostring) :
  Atom p -> Atom q -> p <> q ->
  Contains (replace_empty p t) q = false.
Proof.
  intros Hp Hq Hne.
  destruct (Atom_inv _ Hp) as [p' [Ep _]].
  destruct (Atom_inv _ Hq) as [q' [Eq [Hnq Hq']]].
  induction t as [|c t IH]; cbn [replace_empty].
  - destruct (Contains p q) eqn:E; [| reflexivity].
    rewrite <- (app_nil_r p) in E.
    apply Atom_disjoint in E; try assumption.
    rewrite Eq in E. discriminate.
  - destruct (Contains (p ++ c :: replace_empty p t) q) eqn:E;
      [| reflexivity].
    apply Atom_disjoint in E; try assumption.
    cbn [Contains] in E. rewrite IH, orb_false_r in E.
    exfalso. rewrite Eq in E. cbn [HasPrefix] in E.
    apply andb_true_iff in E. destruct E as [_ E].
    destruct q' as [|x q'']; [congruence |].
    assert (Hh : exists rest, replace_empty p t = "["%char :: rest).
    { rewrite Ep. destruct t; cbn [replace_empty app]; eauto. }
    destruct Hh as [rest Hh]. rewrite Hh in E.
    cbn [HasPrefix] in E. apply andb_true_iff in E.
    destruct E as [Ex _]. apply Ascii.eqb_eq in Ex. subst x.
    apply Hnq. now left.
Qed.

Lemma ReplaceAll_undo (t old new : gostring) :
  Atom new ->
  Contains t new = false ->
  ReplaceAll (ReplaceAll t old new) new old = t.
Proof.
  intros Ha Hc. unfold ReplaceAll.
  destruct (eqs old new) eqn:E.
  - apply eqs_true in E. subst. now rewrite eqs_refl.
  - assert (E' : eqs new old = false).
    { apply eqs_false. apply eqs_false in E. congruence. }
    rewrite E'. destruct (Atom_inv _ Ha) as [new' [En _]].
    subst new.
    destruct old as [|o old].
    + now apply replace_empty_undo.
    + apply (replace_scan_undo (o :: old) _ (length t));
        [discriminate | exact Ha | lia | exact Hc].
Qed.

Lemma ReplaceAll_no_new (t old p q : gostring) :
  Atom p -> Atom q -> p <> q ->
  Contains t q = false ->
  Contains (ReplaceAll t old p) q = false.
Proof.
  intros Hp Hq Hne Hc. unfold ReplaceAll.
  destruct (eqs old p); [exact Hc |].
  destruct old as [|o old].
  - now apply replace_empty_no_new.
  - destruct (Contains (replace_scan (o :: old) p 0 t) q) eqn:E;
      [| reflexivity].
    apply (replace_scan_no_new (o :: old) p q (length t)) in E;
      try assumption; [congruence | discriminate | lia].
Qed.

(** Substituting pair after pair, then restoring the pairs in the
    reverse order, gives the text back. *)
Lemma substitute_restore (ps : list (gostring * gostring)) (t : gostring) :
  Forall Atom (map snd ps) ->
  NoDup (map snd ps) ->
  (forall p, In p (map snd ps) -> Contains t p = false) ->
  fold_left restoreStep (rev ps)
    (fold_left (fun mc e => ReplaceAll mc (fst e) (snd e)) ps t) = t.
Proof.
  revert t. induction ps as [|[l p] ps IH]; intros t Ha Hd Hc.
  - reflexivity.
  - cbn [map snd] in Ha, Hd. inversion Ha as [|? ? Hp Ha']; subst.
    inversion Hd as [|? ? Hnp Hd']; subst.
    cbn [rev fold_left fst snd]. rewrite fold_left_app. cbn [fold_left].
    rewrite IH; try assumption.
    + rewrite restoreStep_ReplaceAll. cbn [fst snd].
      apply ReplaceAll_undo; [exact Hp |]. apply Hc. now left.
    + intros q Hq. apply ReplaceAll_no_new.
      * exact Hp.
      * rewrite Forall_forall in Ha'. now apply Ha'.
      * intros ->. contradiction.
      * apply Hc. now right.
Qed.

Lemma isEntityChar_no_bracket (c : ascii) :
  isEntityChar c = true -> negb (isBracket c) = true.
Proof.
  intros H. destruct (isBracket c) eqn:E; [| reflexivity].
  unfold isBracket in E. apply orb_true_iff in E.
  destruct E as [E | E]; apply Ascii.eqb_eq in E; subst c; discriminate.
Qed.

Lemma isHexDigit_no_bracket (c : ascii) :
  isHexDigit c = true -> negb (isBracket c) = true.
Proof.
  intros H. destruct (isBracket c) eqn:E; [| reflexivity].
  unfold isBracket in E. apply orb_true_iff in E.
  destruct E as [E | E]; apply Ascii.eqb_eq in E; subst c; discriminate.
Qed.

Lemma PlaceholderShape_Atom (p : gostring) : PlaceholderShape p -> Atom p.
Proof.
  intros [name [h [-> [_ [Hn [_ Hh]]]]]].
  exists (name ++ str "_" ++ h). split.
  - cbn [str list_ascii_of_string app]. f_equal.
    now rewrite <- app_assoc.
  - rewrite forallb_app. apply andb_true_iff. split.
    + rewrite forallb_forall in Hn |- *. intros c Hc.
      now apply isEntityChar_no_bracket, Hn.
    + cbn [str list_ascii_of_string app forallb].
      apply andb_true_iff. split; [reflexivity |].
      rewrite forallb_forall in Hh |- *. intros c Hc.
      now apply isHexDigit_no_bracket, Hh.
Qed.

Lemma hexDigits_length (fuel n k : nat) :
  n < fuel -> n < 16 ^ k -> 1 <= k ->
  length (hexDigits fuel n) <= k.
Proof.
  revert n k. induction fuel as [|f IH]; intros n k Hf Hk H1; [lia |].
  cbn [hexDigits]. destruct (n <? 16) eqn:E.
  - simpl. lia.
  - apply Nat.ltb_ge in E. rewrite length_app. cbn [length].
    destruct k as [|k]; [lia |].
    destruct k as [|k].
    + rewrite Nat.pow_1_r in Hk. lia.
    + assert (Hd : n / 16 < 16 ^ S k).
      { apply Nat.Div0.div_lt_upper_bound.
        rewrite Nat.pow_succ_r' in Hk. exact Hk. }
      assert (Hf' : n / 16 < f).
      { assert (n / 16 < n) by (apply Nat.div_lt; lia). lia. }
      specialize (IH (n / 16) (S k) Hf' Hd ltac:(lia)). lia.
Qed.

Lemma hexDigits_nonempty (fuel n : nat) :
  n < fuel -> 1 <= length (hexDigits fuel n).
Proof.
  destruct fuel as [|f]; [lia |]. intros _. cbn [hexDigits].
  destruct (n <? 16); [simpl; lia |].
  rewrite length_app. simpl. lia.
Qed.

Lemma hex04_length (n : nat) : n < 16 ^ 4 -> length (hex04 n) = 4.
Proof.
  intros H. unfold hex04. rewrite length_app, repeat_length.
  pose proof (hexDigits_length (S n) n 4 ltac:(lia) H ltac:(lia)).
  lia.
Qed.

Lemma Sprintf_placeholder_shape (key : gostring) (n : nat) :
  validName key -> n < 16 ^ 4 ->
  PlaceholderShape (Sprintf_placeholder key n).
Proof.
  intros [Hk Hc] Hn. exists key, (hex04 n).
  split; [reflexivity |]. split; [exact Hk |]. split; [exact Hc |].
  split; [now apply hex04_length |].
  apply forallb_forall. apply Forall_forall. apply hex04_digits.
Qed.

Lemma HasPrefix_prefixes (s q : gostring) :
  HasPrefix s q = true -> In q (prefixes s).
Proof.
  revert s. induction q as [|x q IH]; intros s H.
  - destruct s; now left.
  - destruct s as [|c s]; [discriminate |].
    cbn [HasPrefix] in H. apply andb_true_iff in H. destruct H as [H1 H2].
    apply Ascii.eqb_eq in H1. subst x.
    cbn [prefixes]. right. apply in_map. now apply IH.
Qed.

Lemma containsPlaceholderShape_absent (s q : gostring) :
  containsPlaceholderShape s = false ->
  placeholderShaped q = true ->
  Contains s q = false.
Proof.
  intros Hs Hq. induction s as [|c s IH].
  - cbn [containsPlaceholderShape Contains] in *.
    rewrite orb_false_r in *.
    destruct (HasPrefix [] q) eqn:E; [| reflexivity].
    apply HasPrefix_prefixes in E.
    assert (X : existsb placeholderShaped (prefixes []) = true).
    { apply existsb_exists. exists q. auto. }
    congruence.
  - cbn [containsPlaceholderShape Contains] in *.
    apply orb_false_iff in Hs. destruct Hs as [H1 H2].
    rewrite (IH H2), orb_false_r.
    destruct (HasPrefix (c :: s) q) eqn:E; [| reflexivity].
    apply HasPrefix_prefixes in E.
    assert (X : existsb placeholderShaped (prefixes (c :: s)) = true).
    { apply existsb_exists. exists q. auto. }
    congruence.
Qed.

Lemma secondPass_pairs (entry : gomap gostring) (originals : list gostring)
  (content : gostring) :
  secondPass entry originals content =
  fold_left (fun mc e => ReplaceAll mc (fst e) (snd e))
    (map (fun l => (l, index entry l)) originals) content.
Proof.
  unfold secondPass. revert content.
  induction originals as [|l ls IH]; intros content; [reflexivity |].
  cbn [map fold_left fst snd]. apply IH.
Qed.

Lemma entry_by_keys (entry : gomap gostring) :
  NoDup (map fst entry) ->
  map (fun l => (l, index entry l)) (map fst entry) = entry.
Proof.
  intros ND. rewrite map_map.
  transitivity (map (fun e : gostring * gostring => e) entry);
    [| apply map_id].
  apply map_ext_in. intros [l p] H. cbn [fst]. unfold index.
  now rewrite (lookup_In _ l p entry ND H).
Qed.

Lemma substitutionOrder_perm (rt : Runtime) (entry : gomap gostring) :
  fair rt -> NoDup (map fst entry) ->
  Permutation entry (substitutionOrder rt entry).
Proof.
  intros F ND. unfold substitutionOrder.
  rewrite <- (entry_by_keys entry ND) at 1.
  apply Permutation_map. now apply originalsOf_perm.
Qed.

(** The second pass undone: restoring the entries in the reverse of the
    order of substitution gives the content back. *)
Lemma secondPass_restored (rt rt' : Runtime) (content : gostring)
  (piiEntities : gomap Regexp) (entry : gomap gostring) :
  fair rt ->
  (forall key, In key (map fst piiEntities) -> validName key) ->
  containsPlaceholderShape content = false ->
  entry = correlationEntry rt content piiEntities ->
  entry <> [] ->
  length entry <= 16 ^ 4 ->
  range rt' entry = rev (substitutionOrder rt entry) ->
  restorePIIInResponse rt'
    (secondPass entry (originalsOf rt entry) content) entry = content.
Proof.
  intros F Hv Hc He Hne Hlen Hr.
  assert (ND : NoDup (map fst entry)).
  { rewrite He, correlationEntry_allMatches.
    apply (firstPass_inv rt content piiEntities F). }
  assert (Hshape : forall p, In p (map snd entry) -> PlaceholderShape p).
  { intros p Hp. apply in_map_iff in Hp. destruct Hp as [[l p'] [<- Hin]].
    apply In_nth_error in Hin. destruct Hin as [i Hi].
    assert (Hi' : i < length entry)
      by (apply nth_error_Some; congruence).
    rewrite He, correlationEntry_allMatches in Hi.
    destruct (inv_nth _ _ (firstPass_inv rt content piiEntities F) _ _ _ Hi)
      as [key [Hk ->]].
    apply Sprintf_placeholder_shape; [now apply Hv | lia]. }
  pose proof (substitutionOrder_perm rt entry F ND) as P.
  unfold restorePIIInResponse.
  destruct entry as [|e entry]; [congruence |].
  cbn [length Nat.eqb]. rewrite Hr, secondPass_pairs.
  fold (substitutionOrder rt (e :: entry)).
  apply substitute_restore.
  - apply Forall_forall. intros p Hp. apply PlaceholderShape_Atom, Hshape.
    apply (Permutation_in p (Permutation_map snd (Permutation_sym P))).
    exact Hp.
  - apply (Permutation_NoDup (Permutation_map snd P)).
    rewrite He. now apply correlationEntry_values_nodup.
  - intros p Hp. apply containsPlaceholderShape_absent; [exact Hc |].
    apply placeholderShaped_spec, Hshape.
    apply (Permutation_in p (Permutation_map snd (Permutation_sym P))).
    exact Hp.
Qed.

Lemma small_entry (n : nat) : n <= 16 -> n <= 16 ^ 4.
Proof.
  intros H. apply Nat.le_trans with (16 ^ 1); [cbn; lia |].
  apply Nat.pow_le_mono_r; lia.
Qed.

Lemma substitutionOrder_single (rt : Runtime) (e : gostring * gostring) :
  fair rt -> substitutionOrder rt [e] = [e].
Proof.
  intros F. unfold substitutionOrder, originalsOf.
  rewrite (range_single rt _ e F). destruct e as [l p].
  cbn [map fst sortByLenDesc fold_right insertByLen].
  unfold index. cbn [lookup]. now rewrite eqs_refl.
Qed.

(** X3.  Round trip, when the response phase visits the correlation
    entry in the reverse of the order of substitution: for a content
    without a substring of the placeholder shape and a detector set with
    valid entity names, restoring the masked text gives the content
    back. *)
Theorem roundtrip_in_reverse_order (rt rt' : Runtime) (content : gostring)
  (piiEntities : gomap Regexp) (metadata metadata' : Metadata)
  (masked : gostring) (err : option error) (entry : gomap gostring) :
  fair rt ->
  (forall key, In key (map fst piiEntities) -> validName key) ->
  containsPlaceholderShape content = false ->
  lookup MetadataKeyPIIEntities metadata = None ->
  maskPIIFromContent rt content piiEntities metadata
    = (masked, err, metadata') ->
  lookup MetadataKeyPIIEntities metadata' = Some (MapStringString entry) ->
  length entry <= 16 ^ 4 ->
  range rt' entry = rev (substitutionOrder rt entry) ->
  restorePIIInResponse rt' masked entry = content.
Proof.
  intros F Hv Hc Hfresh Hm Hl Hlen Hr.
  destruct (mask_produced _ _ _ _ _ _ _ _ Hfresh Hm Hl)
    as [He [Hne [_ Hmasked]]].
  rewrite Hmasked.
  now apply (secondPass_restored rt rt' content piiEntities entry).
Qed.

Lemma roundtrip_in_reverse_order_nested :
  fair inOrder /\
  restorePIIInResponse reversed
    (str "[NUM_[NUM_0001][NUM_0001][NUM_0001][NUM_0001]] [NUM_0001]")
    [(str "10", str "[NUM_0000]"); (str "0", str "[NUM_0001]")]
  = str "10 0".
Proof.
  split; [exact fair_inOrder |].
  apply (roundtrip_in_reverse_order inOrder reversed (str "10 0")
           numberEntities []
           [(MetadataKeyPIIEntities,
             MapStringString
               [(str "10", str "[NUM_0000]"); (str "0", str "[NUM_0001]")])]
           _ None _ fair_inOrder).
  - intros key [<- | []]. split; [discriminate | reflexivity].
  - vm_compute. reflexivity.
  - reflexivity.
  - vm_compute. reflexivity.
  - reflexivity.
  - apply small_entry. cbn [length]. lia.
  - reflexivity.
Defined.

(** X4.  With one matched literal the round trip holds in every run,
    whatever the order in which either phase visits its map. *)
Corollary roundtrip_single_literal (rt rt' : Runtime) (content : gostring)
  (piiEntities : gomap Regexp) (metadata metadata' : Metadata)
  (masked : gostring) (err : option error) (e : gostring * gostring) :
  fair rt -> fair rt' ->
  (forall key, In key (map fst piiEntities) -> validName key) ->
  containsPlaceholderShape content = false ->
  lookup MetadataKeyPIIEntities metadata = None ->
  maskPIIFromContent rt content piiEntities metadata
    = (masked, err, metadata') ->
  lookup MetadataKeyPIIEntities metadata' = Some (MapStringString [e]) ->
  restorePIIInResponse rt' masked [e] = content.
Proof.
  intros F F' Hv Hc Hfresh Hm Hl.
  destruct (mask_produced _ _ _ _ _ _ _ _ Hfresh Hm Hl)
    as [He [Hne [_ Hmasked]]].
  rewrite Hmasked.
  apply (secondPass_restored rt rt' content piiEntities [e]);
    try assumption.
  - apply small_entry. cbn [length]. lia.
  - rewrite (range_single rt' _ e F').
    now rewrite (substitutionOrder_single rt e F).
Qed.

Lemma roundtrip_single_literal_witness :
  fair inOrder /\ fair reversed /\
  restorePIIInResponse reversed
    (str "Contact [EMAIL_0000] or 555-123-4567")
    [(str "jane@example.com", str "[EMAIL_0000]")]
  = scenarioContent.
Proof.
  split; [exact fair_inOrder |]. split; [exact fair_reversed |].
  apply (roundtrip_single_literal inOrder reversed scenarioContent
           scenarioEntities []
           [(MetadataKeyPIIEntities,
             MapStringString [(str "jane@example.com", str "[EMAIL_0000]")])]
           _ None _ fair_inOrder fair_reversed).
  - intros key [<- | [<- | []]]; split; (discriminate || reflexivity).
  - vm_compute. reflexivity.
  - reflexivity.
  - vm_compute. reflexivity.
  - reflexivity.
Defined.

(* ================================================================== *)
(** ** Placeholders and the guard *)

Lemma hexValue_bound (c : ascii) : isHexDigit c = true -> hexValue c < 16.
Proof.
  unfold isHexDigit, class_mem, hexValue, in_range.
  cbv zeta. cbn [existsb fst snd andb orb].
  change (nat_of_ascii "0") with 48. change (nat_of_ascii "9") with 57.
  change (nat_of_ascii "a") with 97. change (nat_of_ascii "f") with 102.
  rewrite !orb_false_r, orb_true_iff, !andb_true_iff, !Nat.leb_le.
  generalize (nat_of_ascii c) as m. intros m H.
  destruct (m <? 58) eqn:E.
  - apply Nat.ltb_lt in E. lia.
  - apply Nat.ltb_ge in E. lia.
Qed.

Lemma hexNumber_bound (ds : gostring) :
  Forall (fun c => isHexDigit c = true) ds ->
  hexNumber ds < 16 ^ length ds.
Proof.
  induction ds as [|d ds IH] using rev_ind; intros F.
  - unfold hexNumber. simpl. lia.
  - apply Forall_app in F. destruct F as [F1 F2].
    inversion F2 as [|? ? Hd _]; subst.
    rewrite hexNumber_snoc, length_app. cbn [length].
    rewrite Nat.add_1_r, Nat.pow_succ_r'.
    specialize (IH F1). pose proof (hexValue_bound d Hd). lia.
Qed.

(** X1.  A generated placeholder passes the guard of the first pass
    exactly while the counter fits in four hexadecimal digits. *)
Theorem generated_placeholder_guard (key : gostring) (n : nat) :
  validName key ->
  (placeholderShaped (Sprintf_placeholder key n) = true <-> n < 16 ^ 4).
Proof.
  intros Hv. rewrite placeholderShaped_spec. split.
  - intros [name [h [E [_ [_ [Hl Hh]]]]]].
    unfold Sprintf_placeholder in E.
    cbn [str list_ascii_of_string app] in E. injection E as E.
    assert (Fh : Forall (fun c => isHexDigit c = true) h)
      by (apply Forall_forall, forallb_forall; exact Hh).
    destruct (last_separator _ "_"%char key name
                (hex04 n ++ str "]") (h ++ str "]")) as [_ Ht].
    + apply underscore_not_hex, hex04_digits.
    + now apply underscore_not_hex.
    + exact E.
    + apply app_inv_tail in Ht.
      pose proof (hexNumber_bound h Fh) as B. rewrite Hl in B.
      rewrite <- (hex04_value n), Ht. exact B.
  - intros Hn. now apply Sprintf_placeholder_shape.
Qed.

Lemma generated_placeholder_guard_witness :
  validName (str "EMAIL") /\
  placeholderShaped (Sprintf_placeholder (str "EMAIL") 10) = true.
Proof.
  assert (V : validName (str "EMAIL"))
    by (split; [discriminate | reflexivity]).
  split; [exact V |].
  apply (proj2 (generated_placeholder_guard (str "EMAIL") 10 V)).
  apply Nat.lt_le_trans with 16; [lia | now apply small_entry].
Defined.

(** X2.  Two placeholders with different counters differ, whatever the
    entity names. *)
Theorem placeholders_differ_by_counter (k1 k2 : gostring) (n1 n2 : nat) :
  n1 <> n2 -> Sprintf_placeholder k1 n1 <> Sprintf_placeholder k2 n2.
Proof.
  intros Hn E. apply Sprintf_placeholder_inj in E. tauto.
Qed.

Lemma placeholders_differ_by_counter_witness :
  0 <> 1 /\
  Sprintf_placeholder (str "EMAIL") 0 <> Sprintf_placeholder (str "EMAIL") 1.
Proof.
  split; [discriminate |].
  apply (placeholders_differ_by_counter (str "EMAIL") (str "EMAIL") 0 1).
  discriminate.
Defined.

(* ================================================================== *)
(** ** More on masking and restoring *)

Lemma restore_steps_absent (es : gomap gostring) (body : gostring) :
  (forall l p, In (l, p) es -> Contains body p = false) ->
  fold_left restoreStep es body = body.
Proof.
  induction es as [|[l p] es IH]; intros H; [reflexivity |].
  cbn [fold_left restoreStep]. rewrite (H l p (or_introl eq_refl)).
  apply IH. intros l' p' Hin. apply (H l' p'). now right.
Qed.

(** X5.  A response body that holds none of the stored placeholders comes
    back as it is, in whatever order the entries are visited. *)
Theorem restore_without_placeholders (rt : Runtime) (body : gostring)
  (maskedPIIEntities : gomap gostring) :
  fair rt ->
  (forall l p, In (l, p) maskedPIIEntities -> Contains body p = false) ->
  restorePIIInResponse rt body maskedPIIEntities = body.
Proof.
  intros F H. unfold restorePIIInResponse.
  destruct (length maskedPIIEntities =? 0); [reflexivity |].
  apply restore_steps_absent. intros l p Hin. apply (H l p).
  apply (Permutation_in _ (Permutation_sym (F _ maskedPIIEntities))).
  exact Hin.
Qed.

Lemma restore_without_placeholders_witness :
  fair reversed /\
  restorePIIInResponse reversed (str "I cannot share that address.")
    [(str "jane@example.com", str "[EMAIL_0000]");
     (str "555-234-4567", str "[PHONE_0001]")]
  = str "I cannot share that address.".
Proof.
  split; [exact fair_reversed |].
  apply (restore_without_placeholders reversed); [exact fair_reversed |].
  intros l p [H | [H | []]]; injection H as <- <-; vm_compute; reflexivity.
Defined.

Lemma ReplaceAll_nonempty (s old new : gostring) :
  s <> [] -> new <> [] -> ReplaceAll s old new <> [].
Proof.
  intros Hs Hn. unfold ReplaceAll.
  destruct (eqs old new); [exact Hs |].
  destruct s as [|c s]; [congruence |].
  destruct old as [|o old].
  - cbn [replace_empty]. destruct new; [congruence | discriminate].
  - cbn [replace_scan].
    destruct (HasPrefix (c :: s) (o :: old)).
    + destruct new; [congruence | discriminate].
    + discriminate.
Qed.

Lemma secondPass_nonempty (entry : gomap gostring)
  (originals : list gostring) (content : gostring) :
  content <> [] ->
  (forall l, In l originals -> index entry l <> []) ->
  secondPass entry originals content <> [].
Proof.
  unfold secondPass. revert content.
  induction originals as [|l ls IH]; intros content Hc H; [exact Hc |].
  cbn [fold_left]. apply IH.
  - apply ReplaceAll_nonempty; [exact Hc | apply H; now left].
  - intros l' Hl'. apply H. now right.
Qed.

Lemma Sprintf_placeholder_nonempty (key : gostring) (n : nat) :
  Sprintf_placeholder key n <> [].
Proof. discriminate. Qed.

Lemma lookup_store_other (V : Type) (k k' : gostring) (v : V) (m : gomap V) :
  k <> k' -> lookup k (store k' v m) = lookup k m.
Proof.
  intros H. induction m as [|[k0 v0] m IH]; cbn [store lookup].
  - apply eqs_false in H. now rewrite H.
  - destruct (eqs k' k0) eqn:E; cbn [lookup].
    + apply eqs_true in E. subst k0. apply eqs_false in H. now rewrite H.
    + now rewrite IH.
Qed.

(** X6.  Masking hands back a non-empty text exactly when it has stored a
    correlation entry; when it hands back the empty text ("nothing to
    write back") the metadata are as they were. *)
Theorem mask_text_and_entry (rt : Runtime) (content : gostring)
  (piiEntities : gomap Regexp) (metadata metadata' : Metadata)
  (masked : gostring) (err : option error) :
  fair rt ->
  lookup MetadataKeyPIIEntities metadata = None ->
  maskPIIFromContent rt content piiEntities metadata
    = (masked, err, metadata') ->
  (masked <> [] <->
   exists entry,
     lookup MetadataKeyPIIEntities metadata' = Some (MapStringString entry)) /\
  (masked = [] -> metadata' = metadata).
Proof.
  intros F Hfresh Hm. rewrite mask_eq in Hm.
  destruct content as [|c content'].
  { injection Hm as <- _ <-. split; [| reflexivity].
    split; [congruence | intros [entry H]; congruence]. }
  destruct (correlationEntry rt (c :: content') piiEntities)
    as [|e entry] eqn:E.
  { injection Hm as <- _ <-. split; [| reflexivity].
    split; [congruence | intros [entry H]; congruence]. }
  injection Hm as <- _ <-.
  assert (N : secondPass (e :: entry) (originalsOf rt (e :: entry))
                (c :: content') <> []).
  { apply secondPass_nonempty; [discriminate |].
    intros l Hl.
    apply (Permutation_in _ (Permutation_sym
             (originalsOf_perm rt (e :: entry) F))) in Hl.
    apply in_map_iff in Hl. destruct Hl as [[l' p] [El Hin]].
    cbn [fst] in El. subst l'.
    assert (ND : NoDup (map fst (e :: entry))).
    { rewrite <- E, correlationEntry_allMatches.
      apply (firstPass_inv rt (c :: content') piiEntities F). }
    unfold index. rewrite (lookup_In _ l p _ ND Hin).
    apply In_nth_error in Hin. destruct Hin as [i Hi].
    rewrite <- E, correlationEntry_allMatches in Hi.
    destruct (inv_nth _ _ (firstPass_inv rt _ piiEntities F) _ _ _ Hi)
      as [key [_ ->]].
    apply Sprintf_placeholder_nonempty. }
  split; [| intros H; congruence].
  split; [intros _ | intros _; exact N].
  exists (e :: entry). apply lookup_store_same.
Qed.

Lemma mask_text_and_entry_witness :
  fair inOrder /\
  (str "Contact [EMAIL_0000] or 555-123-4567" <> [] <->
   exists entry,
     lookup MetadataKeyPIIEntities
       [(MetadataKeyPIIEntities,
         MapStringString [(str "jane@example.com", str "[EMAIL_0000]")])]
     = Some (MapStringString entry)).
Proof.
  split; [exact fair_inOrder |].
  refine (proj1 (mask_text_and_entry inOrder scenarioContent
                   scenarioEntities [] _ _ None fair_inOrder eq_refl _)).
  vm_compute. reflexivity.
Defined.

Lemma mask_lookup_other (rt : Runtime) (content : gostring)
  (piiEntities : gomap Regexp) (metadata : Metadata) (k : gostring) :
  k <> MetadataKeyPIIEntities ->
  lookup k (snd (maskPIIFromContent rt content piiEntities metadata))
    = lookup k metadata.
Proof.
  intros Hk.
  rewrite mask_eq. destruct content as [|c content']; [reflexivity |].
  destruct (correlationEntry rt (c :: content') piiEntities);
    [reflexivity |].
  cbn [snd]. now apply lookup_store_other.
Qed.

(** X7.  Masking never returns an error, and the only metadata key it can
    change is the fixed key of the correlation entry. *)
Theorem mask_touches_one_key (rt : Runtime) (content : gostring)
  (piiEntities : gomap Regexp) (metadata : Metadata) (k : gostring) :
  k <> MetadataKeyPIIEntities ->
  snd (fst (maskPIIFromContent rt content piiEntities metadata)) = None /\
  lookup k (snd (maskPIIFromContent rt content piiEntities metadata))
    = lookup k metadata.
Proof.
  intros Hk. split.
  - apply mask_err_nil.
  - now apply mask_lookup_other.
Qed.

Lemma mask_touches_one_key_witness :
  str "trace-id" <> MetadataKeyPIIEntities /\
  lookup (str "trace-id")
    (snd (maskPIIFromContent inOrder scenarioContent scenarioEntities
            [(str "trace-id", OtherValue)]))
  = Some OtherValue.
Proof.
  split; [discriminate |].
  apply (proj2 (mask_touches_one_key inOrder scenarioContent
                  scenarioEntities [(str "trace-id", OtherValue)]
                  (str "trace-id") ltac:(discriminate))).
Defined.

Lemma lookup_snoc (V : Type) (l k : gostring) (v : V) (m : gomap V) :
  lookup l (m ++ [(k, v)]) =
  match lookup l m with
  | Some p => Some p
  | None => if eqs l k then Some v else None
  end.
Proof.
  induction m as [|[k0 v0] m IH]; cbn [app lookup]; [reflexivity |].
  destruct (eqs l k0); [reflexivity | exact IH].
Qed.

Lemma claimMatch_keeps (key : gostring) (st : MaskState) (m l p : gostring) :
  lookup l (allMatches st) = Some p ->
  lookup l (allMatches (claimMatch key st m)) = Some p.
Proof.
  intros H. unfold claimMatch.
  destruct (exists_key m (allMatches st)) eqn:E; cbn [negb andb];
    [exact H |].
  destruct (placeholderShaped m); cbn [negb andb]; [exact H |].
  apply exists_key_false in E. cbn [allMatches].
  rewrite store_fresh by exact E. now rewrite lookup_snoc, H.
Qed.

Lemma claimMatches_keep (key : gostring) (ms : list gostring)
  (st : MaskState) (l p : gostring) :
  lookup l (allMatches st) = Some p ->
  lookup l (allMatches (fold_left (claimMatch key) ms st)) = Some p.
Proof.
  revert st. induction ms as [|m ms IH]; intros st H; [exact H |].
  cbn [fold_left]. apply IH. now apply claimMatch_keeps.
Qed.

Lemma claimAll_keep (content : gostring) (es : gomap Regexp)
  (st : MaskState) (l p : gostring) :
  lookup l (allMatches st) = Some p ->
  lookup l (allMatches (fold_left (claimEntity content) es st)) = Some p.
Proof.
  revert st. induction es as [|e es IH]; intros st H; [exact H |].
  cbn [fold_left]. apply IH. unfold claimEntity.
  now apply claimMatches_keep.
Qed.

Lemma claimMatches_claim (key : gostring) (ms : list gostring)
  (st : MaskState) (l : gostring) :
  In l ms -> placeholderShaped l = false ->
  ~ In l (map fst (allMatches st)) ->
  exists i,
    lookup l (allMatches (fold_left (claimMatch key) ms st))
    = Some (Sprintf_placeholder key i).
Proof.
  revert st. induction ms as [|m ms IH]; intros st Hin Hs Hn; [easy |].
  cbn [fold_left].
  destruct (gostring_dec m l) as [-> | Hne].
  - exists (counter st). apply claimMatches_keep.
    unfold claimMatch.
    apply exists_key_false in Hn. rewrite Hn, Hs. cbn [negb andb allMatches].
    apply exists_key_false in Hn.
    rewrite store_fresh by exact Hn.
    rewrite lookup_snoc, eqs_refl.
    apply lookup_None_notin in Hn. now rewrite Hn.
  - destruct Hin as [H | Hin]; [congruence |].
    apply IH; [exact Hin | exact Hs |].
    rewrite claimMatch_keys. intros [H | [H _]]; [auto | congruence].
Qed.

(** X8.  A literal that several detectors match is labelled by the first
    of them in the order of the [range]: its placeholder carries the
    name of the first detector visited that matches it. *)
Theorem first_detector_labels_literal (rt : Runtime) (content : gostring)
  (piiEntities es1 es2 : gomap Regexp) (key : gostring) (re : Regexp)
  (l : gostring) :
  range rt piiEntities = es1 ++ (key, re) :: es2 ->
  (forall e, In e es1 -> ~ In l (FindAllString (snd e) content)) ->
  In l (FindAllString re content) ->
  placeholderShaped l = false ->
  exists i,
    lookup l (correlationEntry rt content piiEntities)
    = Some (Sprintf_placeholder key i).
Proof.
  intros Hr H1 Hin Hs. rewrite correlationEntry_allMatches.
  unfold firstPass. rewrite Hr, fold_left_app. cbn [fold_left].
  set (st1 := fold_left (claimEntity content) es1 _).
  assert (Hn : ~ In l (map fst (allMatches st1))).
  { unfold st1. rewrite claimAll_keys. cbn [allMatches map].
    intros [[] | [e [He [Hl _]]]]. now apply (H1 e). }
  destruct (claimMatches_claim key (FindAllString re content) st1 l
              Hin Hs Hn) as [i Hi].
  exists i. apply claimAll_keep. exact Hi.
Qed.

Lemma first_detector_labels_literal_witness :
  exists i,
    lookup (str "555-234-4567")
      (correlationEntry inOrder (str "call 555-234-4567")
         [(DefaultSSNEntityName, MustCompile DefaultSSNRegex);
          (DefaultPhoneEntityName, MustCompile DefaultPhoneRegex);
          (str "DIGITS",
           MustCompile (Plus (Class false [("0", "9"); ("-", "-")]%char)))])
    = Some (Sprintf_placeholder DefaultPhoneEntityName i).
Proof.
  apply (first_detector_labels_literal inOrder (str "call 555-234-4567")
           _ [(DefaultSSNEntityName, MustCompile DefaultSSNRegex)]
           [(str "DIGITS",
             MustCompile
               (Plus (Class false [("0", "9"); ("-", "-")]%char)))]
           DefaultPhoneEntityName (MustCompile DefaultPhoneRegex)).
  - reflexivity.
  - intros e [<- | []]. vm_compute. intros [].
  - vm_compute. now left.
  - vm_compute. reflexivity.
Defined.

(* ================================================================== *)
(** ** Construction of the policy *)

Lemma entityNamePattern_unfold :
  entityNamePattern
  = Cat Bot (Cat (Plus (Class false [("A", "Z"); ("_", "_")]%char))
               (Cat Eot Eps)).
Proof. reflexivity. Qed.

Lemma match_here_entityName (c : ascii) (s : gostring) :
  match_here
    (Cat Bot (Cat (Plus (Class false [("A", "Z"); ("_", "_")]%char))
                (Cat Eot Eps))) None (c :: s)
  = if isEntityChar c
    then starLoop (run (Class false [("A", "Z"); ("_", "_")]%char))
           (fun p' s' => run (Cat Eot Eps) p' s' (fun _ s'' => Some s''))
           (length s) (Some c) s
    else None.
Proof. reflexivity. Qed.

(** The pattern that validates a custom entity name accepts exactly the
    non-empty texts over A-Z and the underscore. *)
Lemma entityNamePattern_spec (s : gostring) :
  MatchString (MustCompile entityNamePattern) s = true <-> validName s.
Proof.
  cbn [MatchString MustCompile]. rewrite entityNamePattern_unfold.
  unfold validName. destruct s as [|c s].
  - cbn. split; [discriminate | intros [H _]; congruence].
  - cbn [matches_from]. rewrite matches_from_Bot_inside.
    rewrite match_here_entityName. cbn [forallb].
    set (K := fun (p' : option ascii) (s' : gostring) =>
                run (Cat Eot Eps) p' s' (fun _ s'' => Some s'')).
    assert (HK : forall p1 p2 v, K p1 v = K p2 v) by reflexivity.
    assert (HK' : forall v, K None v <> None <-> v = []).
    { intros v. unfold K. cbn [run]. destruct v; split; congruence. }
    destruct (isEntityChar c); cbn [andb].
    + pose proof (starLoop_class false [("A", "Z"); ("_", "_")]%char K
                    (length s) (Some c) s HK (Nat.le_refl _)) as L.
      destruct (starLoop _ K (length s) (Some c) s) eqn:E.
      * split; [intros _ | reflexivity]. split; [discriminate |].
        destruct (proj1 L ltac:(discriminate)) as [u [v [-> [Hu Hv]]]].
        apply HK' in Hv. subst v. now rewrite app_nil_r.
      * split; [discriminate |]. intros [_ H]. exfalso.
        apply (proj2 L); [| reflexivity].
        exists s, []. rewrite app_nil_r.
        split; [reflexivity |]. split; [exact H | now apply HK'].
    + split; [discriminate | intros [_ H]; discriminate].
Qed.

Lemma wellFormed_store (m : gomap Regexp) (key : gostring) (re : Regexp) :
  wellFormedEntities m -> exists_key key m = false -> validName key ->
  wellFormedEntities (store key re m).
Proof.
  intros [ND V] E Hv. apply exists_key_false in E.
  rewrite store_fresh by exact E. split.
  - rewrite map_app. now apply NoDup_snoc.
  - intros k Hk. rewrite map_app in Hk. apply in_app_or in Hk.
    destruct Hk as [Hk | [<- | []]]; auto.
Qed.

Lemma enableBuiltin_wellFormed (on : bool) (name : gostring) (re : regex)
  (m m' : gomap Regexp) :
  validName name -> wellFormedEntities m ->
  enableBuiltin on name re (Some m) = Some m' ->
  wellFormedEntities m'.
Proof.
  intros Hv W. unfold enableBuiltin. destruct on.
  - destruct (exists_key name m) eqn:E; [discriminate |].
    intros H. injection H as <-. now apply wellFormed_store.
  - intros H. now injection H as <-.
Qed.

Lemma validName_builtin :
  validName DefaultEmailEntityName /\ validName DefaultPhoneEntityName /\
  validName DefaultSSNEntityName.
Proof. repeat split; discriminate. Qed.

Lemma objectsOf_objects (idx : nat) (ms : list (gomap iface)) :
  objectsOf idx (map IObject ms) = inr ms.
Proof.
  revert idx. induction ms as [|m ms IH]; intros idx; [reflexivity |].
  cbn [map objectsOf]. now rewrite IH.
Qed.

(** X15.  An array of objects is taken as it is; otherwise the error names
    the index of the first item that is not an object. *)
Theorem first_non_object_reported (ms : list (gomap iface)) (item : iface)
  (rest : list iface) :
  (forall m, item <> IObject m) ->
  objectsOf 0 (map IObject ms) = inr ms /\
  objectsOf 0 (map IObject ms ++ item :: rest)
    = inl (ErrItemNotObject (length ms)).
Proof.
  intros Hi. split; [apply objectsOf_objects |].
  assert (G : forall idx,
             objectsOf idx (map IObject ms ++ item :: rest)
             = inl (ErrItemNotObject (idx + length ms))).
  { induction ms as [|m ms IH]; intros idx.
    - cbn [map app length objectsOf]. rewrite Nat.add_0_r.
      destruct item; try reflexivity. exfalso. now apply (Hi fields).
    - cbn [map app objectsOf length]. rewrite IH. f_equal. f_equal. lia. }
  apply (G 0).
Qed.

Lemma first_non_object_reported_witness :
  objectsOf 0
    [IObject [(str "piiEntity", IString (str "CARD"))];
     IString (str "oops"); IOther]
  = inl (ErrItemNotObject 1).
Proof.
  apply (proj2 (first_non_object_reported
                  [[(str "piiEntity", IString (str "CARD"))]]
                  (IString (str "oops")) [IOther]
                  ltac:(discriminate))).
Defined.

Section ParametersFacts.

Variable json_UnmarshalEntities : gostring -> option (list (gomap iface)).
Variable regexp_Compile : gostring -> option Regexp.

Lemma parseCustom_wellFormed (arr : list (gomap iface)) (i : nat)
  (m m' : gomap Regexp) :
  wellFormedEntities m ->
  parseCustom regexp_Compile i arr m = inr m' ->
  wellFormedEntities m'.
Proof.
  revert i m. induction arr as [|cfg arr IH]; intros i m W H.
  - cbn [parseCustom] in H. now injection H as <-.
  - cbn [parseCustom] in H.
    destruct (lookup (str "piiEntity") cfg) as [[name| | | |]|];
      try discriminate.
    destruct (eqs name []) eqn:En; [discriminate |].
    destruct (MatchString (MustCompile entityNamePattern) name) eqn:Em;
      cbn [negb] in H; [| discriminate].
    destruct (lookup (str "piiRegex") cfg) as [[pat| | | |]|];
      try discriminate.
    destruct (eqs pat []); [discriminate |].
    destruct (regexp_Compile pat) as [re|]; [| discriminate].
    destruct (exists_key name m) eqn:Ee; [discriminate |].
    apply (IH _ _ (wellFormed_store m name re W Ee
                     (proj1 (entityNamePattern_spec name) Em)) H).
Qed.

Lemma addBuiltin_wellFormed (on : bool) (name : gostring) (re : regex)
  (m m' : gomap Regexp) :
  validName name -> wellFormedEntities m ->
  addBuiltin on name re m = inr m' -> wellFormedEntities m'.
Proof.
  intros Hv W. unfold addBuiltin.
  destruct (enableBuiltin on name re (Some m)) as [m0|] eqn:E;
    [| discriminate].
  intros H. injection H as <-.
  now apply (enableBuiltin_wellFormed on name re m).
Qed.

Lemma parseEntities_wellFormed (parameters : gomap iface)
  (m : gomap Regexp) :
  parseEntities json_UnmarshalEntities regexp_Compile parameters = inr m ->
  wellFormedEntities m /\ m <> [].
Proof.
  unfold parseEntities. intros H.
  destruct validName_builtin as [Ve [Vp Vs]].
  assert (W0 : wellFormedEntities []).
  { split; [constructor | intros k []]. }
  set (customStage :=
         match lookup (str "customPIIEntities") parameters with
         | None => inr []
         | Some raw =>
             match entitiesArray json_UnmarshalEntities raw with
             | inl err => inl err
             | inr arr => parseCustom regexp_Compile 0 arr []
             end
         end) in H.
  assert (Wc : forall custom, customStage = inr custom ->
                              wellFormedEntities custom).
  { unfold customStage. intros custom Hc.
    destruct (lookup (str "customPIIEntities") parameters) as [raw|].
    - destruct (entitiesArray json_UnmarshalEntities raw) as [e|arr];
        [discriminate |].
      now apply (parseCustom_wellFormed arr 0 []).
    - now injection Hc as <-. }
  destruct customStage as [e|custom]; [discriminate |].
  specialize (Wc custom eq_refl).
  destruct (parseBoolParam parameters (str "email")) as [be [e|]];
    [discriminate |].
  destruct (parseBoolParam parameters (str "phone")) as [bp [e|]];
    [discriminate |].
  destruct (parseBoolParam parameters (str "ssn")) as [bs [e|]];
    [discriminate |].
  destruct (addBuiltin be DefaultEmailEntityName DefaultEmailRegex custom)
    as [e|m1] eqn:E1; [discriminate |].
  destruct (addBuiltin bp DefaultPhoneEntityName DefaultPhoneRegex m1)
    as [e|m2] eqn:E2; [discriminate |].
  destruct (addBuiltin bs DefaultSSNEntityName DefaultSSNRegex m2)
    as [e|m3] eqn:E3; [discriminate |].
  destruct (length m3 =? 0) eqn:El; [discriminate |].
  injection H as <-. split.
  - apply (addBuiltin_wellFormed _ _ _ _ _ Vs) in E3; [exact E3 |].
    apply (addBuiltin_wellFormed _ _ _ _ _ Vp) in E2; [exact E2 |].
    now apply (addBuiltin_wellFormed _ _ _ _ _ Ve) in E1.
  - intros ->. discriminate.
Qed.

Lemma parseParams_entities (parameters : gomap iface)
  (p : PIIMaskingRegexPolicyParams) :
  parseParams json_UnmarshalEntities regexp_Compile parameters = (p, None) ->
  parseEntities json_UnmarshalEntities regexp_Compile parameters
  = inr (PIIEntities p).
Proof.
  unfold parseParams. intros H.
  destruct (parseEntities json_UnmarshalEntities regexp_Compile parameters)
    as [e|m]; [discriminate |].
  destruct (lookup (str "jsonPath") parameters) as [[j| | | |]|];
    try discriminate;
    destruct (lookup (str "redactPII") parameters) as [[| r | | |]|];
    try discriminate; injection H as <-; reflexivity.
Qed.

(** X9.  A detector set that [parseParams] accepts is not empty, holds no
    entity name twice, and every name in it, custom or built-in, is a
    non-empty text over A-Z and the underscore. *)
Theorem parsed_detector_set (parameters : gomap iface)
  (p : PIIMaskingRegexPolicyParams) :
  parseParams json_UnmarshalEntities regexp_Compile parameters = (p, None) ->
  PIIEntities p <> [] /\
  NoDup (map fst (PIIEntities p)) /\
  (forall key, In key (map fst (PIIEntities p)) -> validName key).
Proof.
  intros H. apply parseParams_entities in H.
  apply parseEntities_wellFormed in H. destruct H as [[ND V] Hne]. auto.
Qed.

End ParametersFacts.

Lemma exampleParameters_parsed :
  parseParams unmarshalFails compileKnown exampleParameters
  = ({| PIIEntities :=
          [(str "NUM", MustCompile (Plus digit));
           (DefaultEmailEntityName, MustCompile DefaultEmailRegex)];
        JsonPath := []; RedactPII := false |}, None).
Proof. reflexivity. Qed.

Lemma parsed_detector_set_witness :
  NoDup (map fst [(str "NUM", MustCompile (Plus digit));
                  (DefaultEmailEntityName, MustCompile DefaultEmailRegex)]).
Proof.
  exact (proj1 (proj2 (parsed_detector_set unmarshalFails compileKnown
                         exampleParameters _ exampleParameters_parsed))).
Defined.

Section ParametersErrors.

Variable json_UnmarshalEntities : gostring -> option (list (gomap iface)).
Variable regexp_Compile : gostring -> option Regexp.

(** X13.  Without a custom entity and with every built-in toggle absent or
    false, the construction fails: at least one detector is required. *)
Theorem no_detector_rejected (parameters : gomap iface) :
  (lookup (str "customPIIEntities") parameters = None \/
   lookup (str "customPIIEntities") parameters = Some (IArray [])) ->
  (forall key, In key [str "email"; str "phone"; str "ssn"] ->
     lookup key parameters = None \/
     lookup key parameters = Some (IBool false)) ->
  snd (parseParams json_UnmarshalEntities regexp_Compile parameters)
    = Some ErrNoDetector /\
  GetPolicy json_UnmarshalEntities regexp_Compile parameters
    = inl ErrNoDetector.
Proof.
  intros Hc Hb.
  assert (E : parseEntities json_UnmarshalEntities regexp_Compile parameters
              = inl ErrNoDetector).
  { unfold parseEntities, parseBoolParam.
    assert (He := Hb (str "email") ltac:(simpl; auto)).
    assert (Hp := Hb (str "phone") ltac:(simpl; auto)).
    assert (Hs := Hb (str "ssn") ltac:(simpl; auto)).
    destruct Hc as [-> | ->]; destruct He as [-> | ->];
      destruct Hp as [-> | ->]; destruct Hs as [-> | ->]; reflexivity. }
  unfold GetPolicy, parseParams. rewrite E. split; reflexivity.
Qed.

(** X14.  A built-in toggle whose name a custom entity has taken makes the
    construction fail with the duplicate name. *)
Theorem builtin_duplicate_rejected (parameters : gomap iface)
  (raw : iface) (arr : list (gomap iface)) (custom : gomap Regexp) :
  lookup (str "customPIIEntities") parameters = Some raw ->
  entitiesArray json_UnmarshalEntities raw = inr arr ->
  parseCustom regexp_Compile 0 arr [] = inr custom ->
  In DefaultEmailEntityName (map fst custom) ->
  lookup (str "email") parameters = Some (IBool true) ->
  snd (parseBoolParam parameters (str "phone")) = None ->
  snd (parseBoolParam parameters (str "ssn")) = None ->
  snd (parseParams json_UnmarshalEntities regexp_Compile parameters)
    = Some (ErrDuplicate DefaultEmailEntityName).
Proof.
  intros Hl Ha Hc Hin He Hp Hs.
  assert (E : parseEntities json_UnmarshalEntities regexp_Compile parameters
              = inl (ErrDuplicate DefaultEmailEntityName)).
  { unfold parseEntities. rewrite Hl, Ha, Hc.
    unfold parseBoolParam at 1. rewrite He.
    destruct (parseBoolParam parameters (str "phone")) as [bp ep].
    cbn [snd] in Hp. subst ep.
    destruct (parseBoolParam parameters (str "ssn")) as [bs es].
    cbn [snd] in Hs. subst es.
    unfold addBuiltin at 1, enableBuiltin.
    apply exists_key_true in Hin. now rewrite Hin. }
  unfold parseParams. now rewrite E.
Qed.

Lemma enableBuiltin_keeps (on : bool) (name : gostring) (re : regex)
  (m m' : gomap Regexp) (k : gostring) (v : Regexp) :
  enableBuiltin on name re (Some m) = Some m' ->
  lookup k m = Some v -> lookup k m' = Some v.
Proof.
  unfold enableBuiltin. destruct on.
  - destruct (exists_key name m) eqn:E; [discriminate |].
    intros H Hk. injection H as <-.
    apply exists_key_false in E. rewrite store_fresh by exact E.
    now rewrite lookup_snoc, Hk.
  - intros H Hk. now injection H as <-.
Qed.

Lemma enableBuiltin_installs (name : gostring) (re : regex)
  (m m' : gomap Regexp) :
  enableBuiltin true name re (Some m) = Some m' ->
  lookup name m' = Some (MustCompile re).
Proof.
  unfold enableBuiltin.
  destruct (exists_key name m); [discriminate |].
  intros H. injection H as <-. apply lookup_store_same.
Qed.

(** X11.  A built-in toggle that is on, in parameters that are accepted,
    puts its own default pattern under its fixed name. *)
Theorem builtin_toggles_install_defaults (parameters : gomap iface)
  (p : PIIMaskingRegexPolicyParams) :
  parseParams json_UnmarshalEntities regexp_Compile parameters = (p, None) ->
  (lookup (str "email") parameters = Some (IBool true) ->
   lookup DefaultEmailEntityName (PIIEntities p)
     = Some (MustCompile DefaultEmailRegex)) /\
  (lookup (str "phone") parameters = Some (IBool true) ->
   lookup DefaultPhoneEntityName (PIIEntities p)
     = Some (MustCompile DefaultPhoneRegex)) /\
  (lookup (str "ssn") parameters = Some (IBool true) ->
   lookup DefaultSSNEntityName (PIIEntities p)
     = Some (MustCompile DefaultSSNRegex)).
Proof.
  intros H. apply parseParams_entities in H.
  unfold parseEntities in H.
  destruct (match lookup (str "customPIIEntities") parameters with
            | None => inr []
            | Some raw =>
                match entitiesArray json_UnmarshalEntities raw with
                | inl err => inl err
                | inr arr => parseCustom regexp_Compile 0 arr []
                end
            end) as [e|custom]; [discriminate |].
  unfold parseBoolParam in H.
  unfold addBuiltin in H.
  destruct (lookup (str "email") parameters) as [[| be | | |]|];
    try discriminate;
    destruct (lookup (str "phone") parameters) as [[| bp | | |]|];
    try discriminate;
    destruct (lookup (str "ssn") parameters) as [[| bs | | |]|];
    try discriminate;
    match type of H with
    | context [enableBuiltin ?b DefaultEmailEntityName _ _] =>
        destruct (enableBuiltin b DefaultEmailEntityName DefaultEmailRegex
                    (Some custom)) as [m1|] eqn:E1; [| discriminate]
    end;
    match type of H with
    | context [enableBuiltin ?b DefaultPhoneEntityName _ _] =>
        destruct (enableBuiltin b DefaultPhoneEntityName DefaultPhoneRegex
                    (Some m1)) as [m2|] eqn:E2; [| discriminate]
    end;
    match type of H with
    | context [enableBuiltin ?b DefaultSSNEntityName _ _] =>
        destruct (enableBuiltin b DefaultSSNEntityName DefaultSSNRegex
                    (Some m2)) as [m3|] eqn:E3; [| discriminate]
    end;
    destruct (length m3 =? 0); try discriminate;
    injection H as <-;
    (split; [| split]); intros Ht; try discriminate;
    injection Ht as ->.
  all: try (apply (enableBuiltin_installs _ _ _ _ E3)).
  all: try (apply (enableBuiltin_keeps _ _ _ _ _ _ _ E3);
            apply (enableBuiltin_installs _ _ _ _ E2)).
  all: try (apply (enableBuiltin_keeps _ _ _ _ _ _ _ E3);
            apply (enableBuiltin_keeps _ _ _ _ _ _ _ E2);
            apply (enableBuiltin_installs _ _ _ _ E1)).
Qed.

(** X12.  A custom entity whose name holds a character outside A-Z and the
    underscore is rejected, and the error carries the index of that
    entity. *)
Theorem invalid_entity_name_rejected (i : nat) (entityConfig : gomap iface)
  (rest : list (gomap iface)) (piiEntities : gomap Regexp)
  (name : gostring) :
  lookup (str "piiEntity") entityConfig = Some (IString name) ->
  name <> [] ->
  forallb isEntityChar name = false ->
  parseCustom regexp_Compile i (entityConfig :: rest) piiEntities
  = inl (ErrEntityNamePattern i).
Proof.
  intros Hl Hn Hc. cbn [parseCustom]. rewrite Hl.
  apply eqs_false in Hn. rewrite Hn.
  destruct (MatchString (MustCompile entityNamePattern) name) eqn:E;
    [| reflexivity].
  apply entityNamePattern_spec in E. destruct E as [_ E]. congruence.
Qed.

End ParametersErrors.

Section ParametersCustom.

Variable json_UnmarshalEntities : gostring -> option (list (gomap iface)).
Variable regexp_Compile : gostring -> option Regexp.

Lemma parseCustom_keeps (arr : list (gomap iface)) (i : nat)
  (m m' : gomap Regexp) (k : gostring) (v : Regexp) :
  parseCustom regexp_Compile i arr m = inr m' ->
  lookup k m = Some v -> lookup k m' = Some v.
Proof.
  revert i m. induction arr as [|cfg arr IH]; intros i m H Hk.
  - cbn [parseCustom] in H. now injection H as <-.
  - cbn [parseCustom] in H.
    destruct (lookup (str "piiEntity") cfg) as [[name| | | |]|];
      try discriminate.
    destruct (eqs name []); [discriminate |].
    destruct (negb (MatchString (MustCompile entityNamePattern) name));
      [discriminate |].
    destruct (lookup (str "piiRegex") cfg) as [[pat| | | |]|];
      try discriminate.
    destruct (eqs pat []); [discriminate |].
    destruct (regexp_Compile pat) as [re|]; [| discriminate].
    destruct (exists_key name m) eqn:Ee; [discriminate |].
    apply (IH _ _ H). apply exists_key_false in Ee.
    rewrite store_fresh by exact Ee. now rewrite lookup_snoc, Hk.
Qed.

Lemma parseCustom_installs (arr : list (gomap iface)) (i : nat)
  (m m' : gomap Regexp) (cfg : gomap iface) :
  parseCustom regexp_Compile i arr m = inr m' ->
  In cfg arr ->
  exists name pat re,
    lookup (str "piiEntity") cfg = Some (IString name) /\
    lookup (str "piiRegex") cfg = Some (IString pat) /\
    regexp_Compile pat = Some re /\
    lookup name m' = Some re.
Proof.
  revert i m. induction arr as [|cfg0 arr IH]; intros i m H Hin; [easy |].
  cbn [parseCustom] in H.
  destruct (lookup (str "piiEntity") cfg0) as [[name| | | |]|] eqn:En;
    try discriminate.
  destruct (eqs name []); [discriminate |].
  destruct (negb (MatchString (MustCompile entityNamePattern) name));
    [discriminate |].
  destruct (lookup (str "piiRegex") cfg0) as [[pat| | | |]|] eqn:Ep;
    try discriminate.
  destruct (eqs pat []); [discriminate |].
  destruct (regexp_Compile pat) as [re|] eqn:Ec; [| discriminate].
  destruct (exists_key name m) eqn:Ee; [discriminate |].
  destruct Hin as [<- | Hin].
  - exists name, pat, re. rewrite En, Ep.
    refine (conj eq_refl (conj eq_refl (conj Ec _))).
    apply (parseCustom_keeps _ _ _ _ _ _ H). apply lookup_store_same.
  - apply (IH _ _ H Hin).
Qed.

Lemma addBuiltin_keeps (on : bool) (name : gostring) (re : regex)
  (m m' : gomap Regexp) (k : gostring) (v : Regexp) :
  addBuiltin on name re m = inr m' ->
  lookup k m = Some v -> lookup k m' = Some v.
Proof.
  unfold addBuiltin.
  destruct (enableBuiltin on name re (Some m)) as [m0|] eqn:E;
    [| discriminate].
  intros H. injection H as <-. apply (enableBuiltin_keeps _ _ _ _ _ _ _ E).
Qed.

(** X10.  In parameters that are accepted, every custom entity of the array
    is a detector: its name maps to the compiled form of its own
    pattern, and no built-in toggle has displaced it. *)
Theorem custom_entities_installed (parameters : gomap iface)
  (p : PIIMaskingRegexPolicyParams) (raw : iface)
  (arr : list (gomap iface)) (entityConfig : gomap iface) :
  parseParams json_UnmarshalEntities regexp_Compile parameters = (p, None) ->
  lookup (str "customPIIEntities") parameters = Some raw ->
  entitiesArray json_UnmarshalEntities raw = inr arr ->
  In entityConfig arr ->
  exists piiEntity piiRegex compiledPattern,
    lookup (str "piiEntity") entityConfig = Some (IString piiEntity) /\
    lookup (str "piiRegex") entityConfig = Some (IString piiRegex) /\
    regexp_Compile piiRegex = Some compiledPattern /\
    lookup piiEntity (PIIEntities p) = Some compiledPattern.
Proof.
  intros H Hl Ha Hin. apply parseParams_entities in H.
  unfold parseEntities in H. rewrite Hl, Ha in H.
  destruct (parseCustom regexp_Compile 0 arr []) as [e|custom] eqn:Ec;
    [discriminate |].
  destruct (parseBoolParam parameters (str "email")) as [be [e|]];
    [discriminate |].
  destruct (parseBoolParam parameters (str "phone")) as [bp [e|]];
    [discriminate |].
  destruct (parseBoolParam parameters (str "ssn")) as [bs [e|]];
    [discriminate |].
  destruct (addBuiltin be DefaultEmailEntityName DefaultEmailRegex custom)
    as [e|m1] eqn:E1; [discriminate |].
  destruct (addBuiltin bp DefaultPhoneEntityName DefaultPhoneRegex m1)
    as [e|m2] eqn:E2; [discriminate |].
  destruct (addBuiltin bs DefaultSSNEntityName DefaultSSNRegex m2)
    as [e|m3] eqn:E3; [discriminate |].
  destruct (length m3 =? 0); [discriminate |].
  injection H as <-.
  destruct (parseCustom_installs _ _ _ _ _ Ec Hin)
    as [name [pat [re [Hn [Hp [Hc Hk]]]]]].
  exists name, pat, re.
  refine (conj Hn (conj Hp (conj Hc _))).
  apply (addBuiltin_keeps _ _ _ _ _ _ _ E3).
  apply (addBuiltin_keeps _ _ _ _ _ _ _ E2).
  apply (addBuiltin_keeps _ _ _ _ _ _ _ E1). exact Hk.
Qed.

End ParametersCustom.

Lemma custom_entities_installed_witness :
  exists piiEntity piiRegex compiledPattern,
    lookup (str "piiEntity")
      [(str "piiEntity", IString (str "NUM"));
       (str "piiRegex", IString (str "[0-9]+"))]
    = Some (IString piiEntity) /\
    lookup (str "piiRegex")
      [(str "piiEntity", IString (str "NUM"));
       (str "piiRegex", IString (str "[0-9]+"))]
    = Some (IString piiRegex) /\
    compileKnown piiRegex = Some compiledPattern /\
    lookup piiEntity
      [(str "NUM", MustCompile (Plus digit));
       (DefaultEmailEntityName, MustCompile DefaultEmailRegex)]
    = Some compiledPattern.
Proof.
  apply (custom_entities_installed unmarshalFails compileKnown
           exampleParameters _
           (IArray [IObject [(str "piiEntity", IString (str "NUM"));
                             (str "piiRegex", IString (str "[0-9]+"))]])
           [[(str "piiEntity", IString (str "NUM"));
             (str "piiRegex", IString (str "[0-9]+"))]]
           _ exampleParameters_parsed eq_refl eq_refl).
  now left.
Defined.

Lemma no_detector_rejected_witness :
  GetPolicy unmarshalFails compileKnown
    [(str "email", IBool false); (str "jsonPath", IString (str "$.text"))]
  = inl ErrNoDetector.
Proof.
  refine (proj2 (no_detector_rejected unmarshalFails compileKnown
                   [(str "email", IBool false);
                    (str "jsonPath", IString (str "$.text"))]
                   (or_introl eq_refl) _)).
  intros key [<- | [<- | [<- | []]]]; vm_compute; auto.
Defined.

Lemma builtin_duplicate_rejected_witness :
  snd (parseParams unmarshalFails compileKnown
         [(str "customPIIEntities",
           IArray [IObject [(str "piiEntity", IString (str "EMAIL"));
                            (str "piiRegex", IString (str "[0-9]+"))]]);
          (str "email", IBool true)])
  = Some (ErrDuplicate DefaultEmailEntityName).
Proof.
  apply (builtin_duplicate_rejected unmarshalFails compileKnown _
           (IArray [IObject [(str "piiEntity", IString (str "EMAIL"));
                             (str "piiRegex", IString (str "[0-9]+"))]])
           [[(str "piiEntity", IString (str "EMAIL"));
             (str "piiRegex", IString (str "[0-9]+"))]]
           [(str "EMAIL", MustCompile (Plus digit))]);
    try reflexivity.
  now left.
Defined.

Lemma builtin_toggles_install_defaults_witness :
  lookup DefaultEmailEntityName
    [(str "NUM", MustCompile (Plus digit));
     (DefaultEmailEntityName, MustCompile DefaultEmailRegex)]
  = Some (MustCompile DefaultEmailRegex).
Proof.
  apply (proj1 (builtin_toggles_install_defaults unmarshalFails compileKnown
                  exampleParameters _ exampleParameters_parsed)).
  reflexivity.
Defined.

(* ================================================================== *)
(** ** The two phases together *)

Lemma claimAll_nothing (content : gostring) (es : gomap Regexp)
  (st : MaskState) :
  (forall e, In e es -> FindAllString (snd e) content = []) ->
  fold_left (claimEntity content) es st = st.
Proof.
  revert st. induction es as [|e es IH]; intros st H; [reflexivity |].
  cbn [fold_left]. unfold claimEntity at 2.
  rewrite (H e (or_introl eq_refl)). cbn [fold_left].
  apply IH. intros e' He'. apply H. now right.
Qed.

Lemma redact_nothing (es : gomap Regexp) (content : gostring) :
  (forall e, In e es -> MatchString (snd e) content = false) ->
  fold_left redactStep es (content, false) = (content, false).
Proof.
  induction es as [|e es IH]; intros H; [reflexivity |].
  cbn [fold_left redactStep]. rewrite (H e (or_introl eq_refl)).
  apply IH. intros e' He'. apply H. now right.
Qed.

Section Phases.

Variable JSONObject : Type.
Variable json_Unmarshal : gostring -> option JSONObject.
Variable SetValueAtJSONPath :
  JSONObject -> gostring -> gostring -> option JSONObject.
Variable json_Marshal : JSONObject -> option gostring.
Variable ExtractStringValueFromJsonpath :
  gostring -> gostring -> gostring + error.
Variable json_UnmarshalEntities : gostring -> option (list (gomap iface)).
Variable regexp_Compile : gostring -> option Regexp.

Local Abbreviation onRequest :=
  (OnRequest json_Unmarshal SetValueAtJSONPath json_Marshal
     ExtractStringValueFromJsonpath).

(** X16.  When no detector finds anything in the cleaned text, the request
    goes on unchanged and the metadata are not touched, in masking mode
    and in redaction mode. *)
Theorem request_unchanged_without_match (rt : Runtime)
  (p : PIIMaskingRegexPolicyParams) (ctx : RequestContext)
  (payload extracted : gostring) :
  fair rt ->
  Body ctx = Some payload ->
  ExtractStringValueFromJsonpath payload (JsonPath p) = inl extracted ->
  (forall e, In e (PIIEntities p) ->
     FindAllString (snd e) (cleanExtracted extracted) = [] /\
     MatchString (snd e) (cleanExtracted extracted) = false) ->
  onRequest rt p ctx = (UpstreamRequestModifications None, ReqMetadata ctx).
Proof.
  intros F Hb Hx Hn. unfold OnRequest.
  destruct (length (PIIEntities p) =? 0); [reflexivity |].
  rewrite Hb, Hx.
  assert (Hr : forall e, In e (range rt (PIIEntities p)) ->
                 FindAllString (snd e) (cleanExtracted extracted) = [] /\
                 MatchString (snd e) (cleanExtracted extracted) = false).
  { intros e He. apply Hn.
    apply (Permutation_in _ (Permutation_sym (F _ (PIIEntities p)))).
    exact He. }
  destruct (RedactPII p).
  - replace (redactPIIFromContent rt (cleanExtracted extracted)
               (PIIEntities p)) with (@nil ascii); [reflexivity |].
    unfold redactPIIFromContent.
    destruct (cleanExtracted extracted) as [|c s] eqn:Ec; [reflexivity |].
    rewrite redact_nothing; [reflexivity |].
    intros e He. now apply Hr.
  - rewrite mask_eq.
    destruct (cleanExtracted extracted) as [|c s] eqn:Ec; [reflexivity |].
    replace (correlationEntry rt (c :: s) (PIIEntities p))
      with (@nil (gostring * gostring)); [reflexivity |].
    rewrite correlationEntry_allMatches. unfold firstPass.
    rewrite claimAll_nothing; [reflexivity |].
    intros e He. now apply Hr.
Qed.

(** X17.  The request phase changes no metadata key but the fixed key of the
    correlation entry, and in redaction mode it changes none. *)
Theorem request_metadata_footprint (rt : Runtime)
  (p : PIIMaskingRegexPolicyParams) (ctx : RequestContext) (k : gostring) :
  k <> MetadataKeyPIIEntities ->
  lookup k (snd (onRequest rt p ctx)) = lookup k (ReqMetadata ctx) /\
  (RedactPII p = true -> snd (onRequest rt p ctx) = ReqMetadata ctx).
Proof.
  intros Hk. unfold OnRequest.
  destruct (length (PIIEntities p) =? 0); [split; reflexivity |].
  destruct (Body ctx) as [payload|]; [| split; reflexivity].
  destruct (ExtractStringValueFromJsonpath payload (JsonPath p))
    as [extracted|e]; [| split; reflexivity].
  destruct (RedactPII p).
  - cbv beta iota.
    destruct (negb (eqs (redactPIIFromContent rt (cleanExtracted extracted)
                           (PIIEntities p)) []) &&
              negb (eqs (redactPIIFromContent rt (cleanExtracted extracted)
                           (PIIEntities p)) (cleanExtracted extracted)));
      split; reflexivity.
  - pose proof (mask_err_nil rt (cleanExtracted extracted)
                  (PIIEntities p) (ReqMetadata ctx)) as He.
    pose proof (mask_lookup_other rt (cleanExtracted extracted)
                  (PIIEntities p) (ReqMetadata ctx) k Hk) as Hl.
    destruct (maskPIIFromContent rt (cleanExtracted extracted)
                (PIIEntities p) (ReqMetadata ctx)) as [[modified err] md].
    cbn [fst snd] in He, Hl. subst err.
    destruct (negb (eqs modified []) &&
              negb (eqs modified (cleanExtracted extracted)));
      (split; [exact Hl | discriminate]).
Qed.

(** X18.  A policy that [GetPolicy] has built fails fast when the text
    cannot be extracted: the request is answered with status 500 and
    the reason, nothing is substituted, the metadata are not touched. *)
Theorem extraction_error_fails_fast (rt : Runtime)
  (parameters : gomap iface) (policy : PIIMaskingRegexPolicy)
  (ctx : RequestContext) (payload : gostring) (err : error) :
  GetPolicy json_UnmarshalEntities regexp_Compile parameters = inr policy ->
  Body ctx = Some payload ->
  ExtractStringValueFromJsonpath payload (JsonPath (params policy))
    = inr err ->
  onRequest rt (params policy) ctx
  = (ImmediateResponse 500
       (str "Error occurred during pii-masking-regex mediation: " ++
        str "error extracting value from JSONPath: " ++ err),
     ReqMetadata ctx).
Proof.
  intros Hg Hb Hx. unfold GetPolicy in Hg.
  destruct (parseParams json_UnmarshalEntities regexp_Compile parameters)
    as [pp [e|]] eqn:Ep; [discriminate |].
  injection Hg as <-. cbn [params] in *.
  destruct (parseEntities_wellFormed _ _ _ _
              (parseParams_entities _ _ _ _ Ep)) as [_ Hne].
  unfold OnRequest.
  destruct (PIIEntities pp) as [|e0 es] eqn:Ee; [congruence |].
  cbn [length Nat.eqb]. now rewrite Hb, Hx.
Qed.

End Phases.

Section PhasesTogether.

Variable JSONObject : Type.
Variable json_Unmarshal : gostring -> option JSONObject.
Variable SetValueAtJSONPath :
  JSONObject -> gostring -> gostring -> option JSONObject.
Variable json_Marshal : JSONObject -> option gostring.
Variable ExtractStringValueFromJsonpath :
  gostring -> gostring -> gostring + error.
Variable json_UnmarshalEntities : gostring -> option (list (gomap iface)).
Variable regexp_Compile : gostring -> option Regexp.

Local Abbreviation onRequest :=
  (OnRequest json_Unmarshal SetValueAtJSONPath json_Marshal
     ExtractStringValueFromJsonpath).

(** X19.  The two phases of one exchange, for a policy built by [GetPolicy]
    in masking mode with an empty JSONPath (the whole payload is the
    text).  When the request phase has modified the body and the
    upstream answers with that body, the response phase, visiting the
    correlation entry in the reverse of the order of substitution, gives
    back the cleaned request text, provided that text held no substring
    of the placeholder shape. *)
Theorem phases_round_trip (rt rt' : Runtime) (parameters : gomap iface)
  (policy : PIIMaskingRegexPolicy) (ctx : RequestContext)
  (payload extracted body : gostring) (metadata' : Metadata)
  (entry : gomap gostring) :
  fair rt ->
  GetPolicy json_UnmarshalEntities regexp_Compile parameters = inr policy ->
  JsonPath (params policy) = [] ->
  RedactPII (params policy) = false ->
  lookup MetadataKeyPIIEntities (ReqMetadata ctx) = None ->
  Body ctx = Some payload ->
  ExtractStringValueFromJsonpath payload [] = inl extracted ->
  containsPlaceholderShape (cleanExtracted extracted) = false ->
  onRequest rt (params policy) ctx
    = (UpstreamRequestModifications (Some body), metadata') ->
  lookup MetadataKeyPIIEntities metadata' = Some (MapStringString entry) ->
  length entry <= 16 ^ 4 ->
  range rt' entry = rev (substitutionOrder rt entry) ->
  OnResponse rt' (params policy)
    {| ResponseBody := Some body; RespMetadata := metadata' |}
  = UpstreamResponseModifications (Some (cleanExtracted extracted)).
Proof.
  intros F Hg Hj Hr Hfresh Hb Hx Hc Hreq Hl Hlen Hrange.
  unfold GetPolicy in Hg.
  destruct (parseParams json_UnmarshalEntities regexp_Compile parameters)
    as [pp [e|]] eqn:Ep; [discriminate |].
  injection Hg as <-. cbn [params] in *.
  destruct (parseEntities_wellFormed _ _ _ _
              (parseParams_entities _ _ _ _ Ep)) as [[_ Hv] Hne].
  unfold OnRequest in Hreq.
  destruct (PIIEntities pp) as [|e0 es] eqn:Ee; [congruence |].
  cbn [length Nat.eqb] in Hreq. rewrite Hb, Hj, Hx, Hr in Hreq.
  rewrite <- Ee in *. clear Ee e0 es.
  pose proof (mask_err_nil rt (cleanExtracted extracted) (PIIEntities pp)
                (ReqMetadata ctx)) as Herr.
  destruct (maskPIIFromContent rt (cleanExtracted extracted)
              (PIIEntities pp) (ReqMetadata ctx))
    as [[modified err] md] eqn:Em.
  cbn [fst snd] in Herr. subst err.
  destruct (eqs modified []); [discriminate |].
  destruct (eqs modified (cleanExtracted extracted)) eqn:Ed;
    [discriminate |].
  cbn [negb andb updatePayloadWithMaskedContent] in Hreq.
  injection Hreq as <- <-. apply eqs_false in Ed.
  destruct (mask_produced _ _ _ _ _ _ _ _ Hfresh Em Hl)
    as [He [Hn [_ Hmasked]]].
  assert (R : restorePIIInResponse rt' modified entry
              = cleanExtracted extracted).
  { rewrite Hmasked.
    now apply (secondPass_restored rt rt' _ (PIIEntities pp) entry). }
  unfold OnResponse. rewrite Hr. cbn [RespMetadata ResponseBody].
  rewrite Hl, R.
  replace (eqs (cleanExtracted extracted) modified) with false;
    [reflexivity |].
  symmetry. apply eqs_false. congruence.
Qed.

End PhasesTogether.

Lemma examplePolicy_built :
  GetPolicy unmarshalFails compileKnown exampleParameters
  = inr examplePolicy.
Proof. reflexivity. Qed.

Lemma phases_round_trip_witness :
  fair inOrder /\
  OnResponse reversed (params examplePolicy)
    {| ResponseBody := Some (str "mail [EMAIL_0000]");
       RespMetadata :=
         [(MetadataKeyPIIEntities,
           MapStringString [(str "jane@example.com", str "[EMAIL_0000]")])]
    |}
  = UpstreamResponseModifications (Some (str "mail jane@example.com")).
Proof.
  split; [exact fair_inOrder |].
  apply (phases_round_trip gostring unmarshalObject setRoot marshalRaw
           extractWhole unmarshalFails compileKnown inOrder reversed
           exampleParameters examplePolicy
           {| Body := Some (quoted (str "  mail jane@example.com "));
              ReqMetadata := [] |}
           (quoted (str "  mail jane@example.com "))
           (quoted (str "  mail jane@example.com "))
           (str "mail [EMAIL_0000]")
           [(MetadataKeyPIIEntities,
             MapStringString [(str "jane@example.com", str "[EMAIL_0000]")])]
           [(str "jane@example.com", str "[EMAIL_0000]")]
           fair_inOrder examplePolicy_built).
  - reflexivity.
  - reflexivity.
  - reflexivity.
  - reflexivity.
  - reflexivity.
  - vm_compute. reflexivity.
  - vm_compute. reflexivity.
  - reflexivity.
  - apply small_entry. cbn [length]. lia.
  - reflexivity.
Defined.

Lemma request_unchanged_without_match_witness :
  fair inOrder /\
  OnRequest unmarshalObject setRoot marshalRaw extractWhole inOrder
    (params examplePolicy)
    {| Body := Some (str "nothing to hide"); ReqMetadata := [] |}
  = (UpstreamRequestModifications None, []).
Proof.
  split; [exact fair_inOrder |].
  apply (request_unchanged_without_match gostring unmarshalObject setRoot
           marshalRaw extractWhole inOrder (params examplePolicy)
           {| Body := Some (str "nothing to hide"); ReqMetadata := [] |}
           (str "nothing to hide") (str "nothing to hide") fair_inOrder).
  - reflexivity.
  - reflexivity.
  - intros e [<- | [<- | []]]; split; vm_compute; reflexivity.
Defined.

Lemma request_metadata_footprint_witness :
  str "trace-id" <> MetadataKeyPIIEntities /\
  lookup (str "trace-id")
    (snd (OnRequest unmarshalObject setRoot marshalRaw extractWhole inOrder
            (params examplePolicy)
            {| Body := Some (str "mail jane@example.com");
               ReqMetadata := [(str "trace-id", OtherValue)] |}))
  = Some OtherValue.
Proof.
  split; [discriminate |].
  apply (proj1 (request_metadata_footprint gostring unmarshalObject setRoot
                  marshalRaw extractWhole inOrder (params examplePolicy)
                  {| Body := Some (str "mail jane@example.com");
                     ReqMetadata := [(str "trace-id", OtherValue)] |}
                  (str "trace-id") ltac:(discriminate))).
Defined.

Lemma extraction_error_fails_fast_witness :
  OnRequest unmarshalObject setRoot marshalRaw extractFails inOrder
    (params examplePolicy)
    {| Body := Some (str "mail jane@example.com"); ReqMetadata := [] |}
  = (ImmediateResponse 500
       (str "Error occurred during pii-masking-regex mediation: " ++
        str "error extracting value from JSONPath: " ++
        str "path not found"), []).
Proof.
  apply (extraction_error_fails_fast gostring unmarshalObject setRoot
           marshalRaw extractFails unmarshalFails compileKnown inOrder
           exampleParameters examplePolicy
           {| Body := Some (str "mail jane@example.com");
              ReqMetadata := [] |}
           (str "mail jane@example.com") (str "path not found")
           examplePolicy_built eq_refl eq_refl).
Defined.

Lemma invalid_entity_name_rejected_witness :
  parseCustom compileKnown 0
    [[(str "piiEntity", IString (str "card_no"));
      (str "piiRegex", IString (str "[0-9]+"))]] []
  = inl (ErrEntityNamePattern 0).
Proof.
  apply (invalid_entity_name_rejected compileKnown 0 _ [] []
           (str "card_no")).
  - reflexivity.
  - discriminate.
  - reflexivity.
Defined.

(* ================================================================== *)
(** ** Placeholder-shaped texts in the content *)

Lemma HasPrefix_stop (x k : gostring) (c : ascii) (y : gostring) :
  ~ In c k -> HasPrefix (x ++ c :: y) k = HasPrefix x k.
Proof.
  revert k. induction x as [|d x IH]; intros k Hc.
  - destruct k as [|o k]; [reflexivity |]. cbn [app HasPrefix].
    destruct (Ascii.eqb o c) eqn:E; [| reflexivity].
    apply Ascii.eqb_eq in E. subst o. exfalso. apply Hc. now left.
  - destruct k as [|o k]; [reflexivity |]. cbn [app HasPrefix].
    rewrite IH; [reflexivity |]. intros H. apply Hc. now right.
Qed.

Lemma replace_scan_app (k p r a : gostring) (n : nat) :
  (forall a', HasPrefix (a' ++ r) k = HasPrefix a' k) ->
  n <= length a ->
  replace_scan k p n (a ++ r) = replace_scan k p n a ++ replace_scan k p 0 r.
Proof.
  intros H. revert n. induction a as [|c a IH]; intros n Hn.
  - cbn [length] in Hn. replace n with 0 by lia. reflexivity.
  - destruct n as [|m].
    + change ((c :: a) ++ r) with (c :: (a ++ r)).
      cbn [replace_scan].
      change (c :: (a ++ r)) with ((c :: a) ++ r). rewrite (H (c :: a)).
      destruct (HasPrefix (c :: a) k) eqn:E.
      * rewrite IH; [now rewrite app_assoc |].
        apply HasPrefix_app in E. destruct E as [t E].
        apply (f_equal (@length ascii)) in E.
        rewrite length_app in E. cbn [length] in E. lia.
      * rewrite IH by lia. reflexivity.
    + cbn [app replace_scan]. apply IH. cbn [length] in Hn. lia.
Qed.

Lemma Contains_app_l (s t q : gostring) :
  Contains s q = true -> Contains (s ++ t) q = true.
Proof.
  rewrite !Contains_spec. intros [u [v ->]].
  exists u, (v ++ t). now rewrite <- !app_assoc.
Qed.

Lemma no_bracket (k : gostring) :
  forallb (fun c => negb (isBracket c)) k = true ->
  ~ In "["%char k /\ ~ In "]"%char k.
Proof.
  intros H. rewrite forallb_forall in H.
  split; intros Hin; specialize (H _ Hin); discriminate.
Qed.

(** A replacement works around a bracketed text that its search text
    neither occurs in nor can reach into. *)
Lemma ReplaceAll_around (a inner b k p : gostring) :
  forallb (fun c => negb (isBracket c)) k = true ->
  Contains ("["%char :: inner ++ ["]"%char]) k = false ->
  ReplaceAll (a ++ ("["%char :: inner ++ ["]"%char]) ++ b) k p
  = ReplaceAll a k p ++ ("["%char :: inner ++ ["]"%char]) ++ ReplaceAll b k p.
Proof.
  intros Hk Hc. destruct (no_bracket k Hk) as [Ho Hcl].
  unfold ReplaceAll. destruct (eqs k p); [reflexivity |].
  destruct k as [|o k].
  { cbn [Contains] in Hc. now rewrite HasPrefix_nil in Hc. }
  change (("["%char :: inner ++ ["]"%char]) ++ b)
    with ("["%char :: ((inner ++ ["]"%char]) ++ b)).
  rewrite replace_scan_app;
    [| intros a'; now apply HasPrefix_stop | lia].
  f_equal.
  replace ("["%char :: (inner ++ ["]"%char]) ++ b)
    with (("["%char :: inner) ++ "]"%char :: b)
    by (cbn [app]; now rewrite <- app_assoc).
  rewrite replace_scan_app;
    [| intros a'; now apply HasPrefix_stop | lia].
  rewrite replace_scan_absent.
  - cbn [replace_scan HasPrefix].
    destruct (Ascii.eqb o "]") eqn:E.
    + apply Ascii.eqb_eq in E. subst o. exfalso. apply Hcl. now left.
    + cbn [andb app]. now rewrite <- app_assoc.
  - destruct (Contains ("["%char :: inner) (o :: k)) eqn:E; [| reflexivity].
    apply (Contains_app_l _ ["]"%char]) in E. cbn [app] in E. congruence.
Qed.

Lemma secondPass_around (entry : gomap gostring) (originals : list gostring)
  (a inner b : gostring) :
  (forall k, In k originals ->
     forallb (fun c => negb (isBracket c)) k = true /\
     Contains ("["%char :: inner ++ ["]"%char]) k = false) ->
  secondPass entry originals (a ++ ("["%char :: inner ++ ["]"%char]) ++ b)
  = secondPass entry originals a ++ ("["%char :: inner ++ ["]"%char]) ++
    secondPass entry originals b.
Proof.
  unfold secondPass. revert a b.
  induction originals as [|k ks IH]; intros a b H; [reflexivity |].
  cbn [fold_left]. destruct (H k (or_introl eq_refl)) as [H1 H2].
  rewrite (ReplaceAll_around a inner b k _ H1 H2).
  apply IH. intros k' Hk'. apply H. now right.
Qed.

Lemma PlaceholderShape_bracketed (l : gostring) :
  PlaceholderShape l -> exists inner, l = "["%char :: inner ++ ["]"%char].
Proof.
  intros [name [h [-> _]]]. exists (name ++ str "_" ++ h).
  cbn [str list_ascii_of_string app]. now rewrite <- !app_assoc.
Qed.

(** C7, amended.  A literal that already has the placeholder shape (a
    bracket, an entity name over A-Z and the underscore, an underscore,
    four lowercase hexadecimal digits, a bracket) is never given a
    placeholder (it has no entry in [allMatches]), never enters the
    correlation entry kept for the response, and is never one of the
    literals that the second pass substitutes.  Where it stands in the
    content it stands in the masked text, with the text before it and
    the text after it masked on their own, when no masked literal holds
    a bracket or occurs inside it. *)
Theorem shaped_literal_never_masked (rt : Runtime) (content : gostring)
  (piiEntities : gomap Regexp) (metadata metadata' : Metadata)
  (masked : gostring) (err : option error) (l : gostring) :
  fair rt ->
  PlaceholderShape l ->
  maskPIIFromContent rt content piiEntities metadata
    = (masked, err, metadata') ->
  lookup MetadataKeyPIIEntities metadata = None ->
  let st := firstPass rt content piiEntities in
  lookup l (allMatches st) = None /\
  lookup l (maskedPIIEntities st) = None /\
  ~ In l (originalsOf rt (allMatches st)) /\
  (forall entry,
     lookup MetadataKeyPIIEntities metadata' = Some (MapStringString entry) ->
     lookup l entry = None /\
     forall a b,
       content = a ++ l ++ b ->
       (forall k, In k (map fst entry) ->
          forallb (fun c => negb (isBracket c)) k = true /\
          Contains l k = false) ->
       masked = secondPass entry (originalsOf rt entry) a ++ l ++
                secondPass entry (originalsOf rt entry) b).
Proof.
  intros F Hs Hm Hfresh st.
  destruct (PlaceholderShape_bracketed l Hs) as [inner Hl].
  apply placeholderShaped_spec in Hs.
  assert (Hn : ~ In l (map fst (allMatches st))).
  { intros H. apply firstPass_keys_unshaped in H. congruence. }
  assert (Hk : lookup l (allMatches st) = None)
    by now apply lookup_None_notin.
  refine (conj Hk (conj _ (conj _ _))).
  - change (lookup l (correlationEntry rt content piiEntities) = None).
    now rewrite correlationEntry_allMatches.
  - intros H. apply Hn.
    apply (Permutation_in l (Permutation_sym (originalsOf_perm rt _ F))).
    exact H.
  - intros entry He.
    destruct (mask_produced _ _ _ _ _ _ _ _ Hfresh Hm He)
      as [Ee [_ [_ Hmasked]]].
    split.
    + rewrite Ee. now rewrite correlationEntry_allMatches.
    + intros a b Hc Hkeys. rewrite Hmasked, Hc, Hl.
      apply secondPass_around. intros k Hin. rewrite <- Hl.
      apply Hkeys.
      apply (Permutation_in k (Permutation_sym (originalsOf_perm rt _ F))).
      exact Hin.
Qed.

Lemma shaped_literal_never_masked_witness :
  fair inOrder /\
  PlaceholderShape (str "[EMAIL_0000]") /\
  In (str "[EMAIL_0000]")
    (FindAllString (MustCompile (Plus (Class false [("!", "~")]%char)))
       (str "mail [EMAIL_0000] or a@b.co")) /\
  str "[TOKEN_0000] [EMAIL_0000] [TOKEN_0001] [TOKEN_0002]"
  = secondPass
      [(str "mail", str "[TOKEN_0000]"); (str "or", str "[TOKEN_0001]");
       (str "a@b.co", str "[TOKEN_0002]")]
      (originalsOf inOrder
         [(str "mail", str "[TOKEN_0000]"); (str "or", str "[TOKEN_0001]");
          (str "a@b.co", str "[TOKEN_0002]")])
      (str "mail ") ++
    str "[EMAIL_0000]" ++
    secondPass
      [(str "mail", str "[TOKEN_0000]"); (str "or", str "[TOKEN_0001]");
       (str "a@b.co", str "[TOKEN_0002]")]
      (originalsOf inOrder
         [(str "mail", str "[TOKEN_0000]"); (str "or", str "[TOKEN_0001]");
          (str "a@b.co", str "[TOKEN_0002]")])
      (str " or a@b.co").
Proof.
  assert (S : PlaceholderShape (str "[EMAIL_0000]")).
  { exists (str "EMAIL"), (str "0000"). repeat split; discriminate. }
  split; [exact fair_inOrder |].
  split; [exact S |].
  split; [vm_compute; tauto |].
  refine (proj2 (proj2 (proj2 (proj2 (shaped_literal_never_masked inOrder
    (str "mail [EMAIL_0000] or a@b.co")
    [(str "TOKEN", MustCompile (Plus (Class false [("!", "~")]%char)))]
    []
    [(MetadataKeyPIIEntities,
      MapStringString [(str "mail", str "[TOKEN_0000]");
                       (str "or", str "[TOKEN_0001]");
                       (str "a@b.co", str "[TOKEN_0002]")])]
    (str "[TOKEN_0000] [EMAIL_0000] [TOKEN_0001] [TOKEN_0002]") None
    (str "[EMAIL_0000]") fair_inOrder S _ _))) _ eq_refl)
    (str "mail ") (str " or a@b.co") _ _).
  - vm_compute. reflexivity.
  - reflexivity.
  - reflexivity.
  - intros k [<- | [<- | [<- | []]]]; split; vm_compute; reflexivity.
Defined.

(** C7, as stated, fails: the detector TOKEN matches the text
    [[EMAIL_0000]] of the content, which has the placeholder shape and is
    given no placeholder; the detector NUM matches the digits inside it
    and the second pass wraps them, in either order of the detectors, so
    that the masked text no longer holds the literal. *)
Lemma shaped_literal_rewritten_inside :
  PlaceholderShape (str "[EMAIL_0000]") /\
  In (str "[EMAIL_0000]")
    (FindAllString (MustCompile (Plus (Class false [("!", "~")]%char)))
       (str "x [EMAIL_0000]")) /\
  fair inOrder /\ fair reversed /\
  maskPIIFromContent inOrder (str "x [EMAIL_0000]") tokenEntities []
  = (str "[TOKEN_0000] [EMAIL_[NUM_0001]]", None,
     [(MetadataKeyPIIEntities,
       MapStringString [(str "x", str "[TOKEN_0000]");
                        (str "0000", str "[NUM_0001]")])]) /\
  maskPIIFromContent reversed (str "x [EMAIL_0000]") tokenEntities []
  = (str "[TOKEN_0001] [EMAIL_[NUM_0000]]", None,
     [(MetadataKeyPIIEntities,
       MapStringString [(str "0000", str "[NUM_0000]");
                        (str "x", str "[TOKEN_0001]")])]) /\
  Contains (str "[TOKEN_0000] [EMAIL_[NUM_0001]]") (str "[EMAIL_0000]")
    = false /\
  Contains (str "[TOKEN_0001] [EMAIL_[NUM_0000]]") (str "[EMAIL_0000]")
    = false.
Proof.
  split.
  { exists (str "EMAIL"), (str "0000"). repeat split; discriminate. }
  split; [vm_compute; tauto |].
  split; [exact fair_inOrder |]. split; [exact fair_reversed |].
  repeat split; vm_compute; reflexivity.
Qed.
